(** * A shallow embedding of the dclass lexer and parser (package dclass)

    The model follows src/dclass/lex.go, src/dclass/parse.go, src/dclass/File.go,
    src/dclass/Class.go and src/dclass/types.go.  Byte strings are Rocq [string]s
    (one [ascii] per byte), byte offsets are [nat], runes are [Z].

    The Unicode category tables behind [unicode.IsLetter], [unicode.IsDigit] and
    [strconv.IsPrint] are part of Go's standard library, not of this repository.
    Go answers for Latin-1 from a fixed 256-entry table, which is written out
    below; above U+00FF the answer comes from range tables, which the model takes
    as a parameter [UnicodeHi] (a [Variable] of the sections below).  Every
    statement proved in a section therefore holds for every such table. *)

From Stdlib Require Import String Ascii List ZArith Lia Bool Arith PeanoNat.
Import ListNotations.

Open Scope Z_scope.

Infix "+++" := String.append (at level 60, right associativity).

(** ** Go runtime pieces *)

Definition dquote : string := String (ascii_of_nat 34) EmptyString.

(** The byte at offset [i] of a Go string. *)
Definition byte_at (s : string) (i : nat) : option Z :=
  match String.get i s with
  | Some c => Some (Z.of_nat (nat_of_ascii c))
  | None => None
  end.

Definition byte_str (b : Z) : string := String (ascii_of_nat (Z.to_nat b)) EmptyString.

Definition rune_of (c : ascii) : Z := Z.of_nat (nat_of_ascii c).

Definition RuneError : Z := 65533.
Definition MaxRune : Z := 1114111.

(** [eof] of lex.go: the rune returned by [lexer.next] at end of input. *)
Definition eof : Z := -1.

(** utf8.DecodeRuneInString applied to [s[i:]]: (RuneError, 0) on empty
    input, (RuneError, 1) on an invalid encoding. *)
Definition utf8_DecodeRuneInString (s : string) (i : nat) : Z * nat :=
  let cont (k : nat) (lo hi : Z) : bool :=
    match byte_at s (i + k) with Some b => (lo <=? b) && (b <=? hi) | None => false end in
  let cb (k : nat) : Z :=
    match byte_at s (i + k) with Some b => Z.land b 63 | None => 0 end in
  match byte_at s i with
  | None => (RuneError, 0%nat)
  | Some b0 =>
    if b0 <? 128 then (b0, 1%nat)
    else if (194 <=? b0) && (b0 <=? 223) then
      if cont 1%nat 128 191
      then (Z.lor (Z.shiftl (Z.land b0 31) 6) (cb 1%nat), 2%nat)
      else (RuneError, 1%nat)
    else if (224 <=? b0) && (b0 <=? 239) then
      let lo1 := if b0 =? 224 then 160 else 128 in
      let hi1 := if b0 =? 237 then 159 else 191 in
      if cont 1%nat lo1 hi1 && cont 2%nat 128 191
      then (Z.lor (Z.shiftl (Z.land b0 15) 12)
              (Z.lor (Z.shiftl (cb 1%nat) 6) (cb 2%nat)), 3%nat)
      else (RuneError, 1%nat)
    else if (240 <=? b0) && (b0 <=? 244) then
      let lo1 := if b0 =? 240 then 144 else 128 in
      let hi1 := if b0 =? 244 then 143 else 191 in
      if cont 1%nat lo1 hi1 && cont 2%nat 128 191 && cont 3%nat 128 191
      then (Z.lor (Z.shiftl (Z.land b0 7) 18)
              (Z.lor (Z.shiftl (cb 1%nat) 12)
                 (Z.lor (Z.shiftl (cb 2%nat) 6) (cb 3%nat))), 4%nat)
      else (RuneError, 1%nat)
    else (RuneError, 1%nat)
  end.

(** utf8.ValidRune *)
Definition ValidRune (r : Z) : bool :=
  ((0 <=? r) && (r <? 55296)) || ((57343 <? r) && (r <=? MaxRune)).

(** utf8.AppendRune / string(r) *)
Definition utf8_EncodeRune (r : Z) : string :=
  let r := if ValidRune r then r else RuneError in
  if r <? 128 then byte_str r
  else if r <? 2048 then
    byte_str (Z.lor 192 (Z.shiftr r 6)) +++ byte_str (Z.lor 128 (Z.land r 63))
  else if r <? 65536 then
    byte_str (Z.lor 224 (Z.shiftr r 12)) +++ byte_str (Z.lor 128 (Z.land (Z.shiftr r 6) 63))
    +++ byte_str (Z.lor 128 (Z.land r 63))
  else
    byte_str (Z.lor 240 (Z.shiftr r 18)) +++ byte_str (Z.lor 128 (Z.land (Z.shiftr r 12) 63))
    +++ byte_str (Z.lor 128 (Z.land (Z.shiftr r 6) 63)) +++ byte_str (Z.lor 128 (Z.land r 63)).

(** The Unicode range tables Go consults above Latin-1. *)
Record UnicodeHi := mkUnicodeHi {
  letter_hi : Z -> bool;   (** unicode.Letter, for runes above U+00FF *)
  digit_hi : Z -> bool;    (** unicode.Digit, for runes above U+00FF *)
  print_hi : Z -> bool     (** strconv's printable tables, above U+00FF *)
}.

(** The letters of Go's Latin-1 properties table (pLu or pLl set). *)
Definition latin1_letter (r : Z) : bool :=
  ((65 <=? r) && (r <=? 90)) || ((97 <=? r) && (r <=? 122))
  || (r =? 170) || (r =? 181) || (r =? 186)
  || ((192 <=? r) && (r <=? 214)) || ((216 <=? r) && (r <=? 246))
  || ((248 <=? r) && (r <=? 255)).

(** Hexadecimal and decimal digits, as used by fmt and strconv. *)
Definition hex_char (upper : bool) (d : Z) : string :=
  if d <? 10 then byte_str (48 + d)
  else if upper then byte_str (55 + d) else byte_str (87 + d).

(** The [width] low hexadecimal digits of [z]. *)
Fixpoint hex_fixed (upper : bool) (width : nat) (z : Z) : string :=
  match width with
  | O => EmptyString
  | S w => hex_fixed upper w (Z.shiftr z 4) +++ hex_char upper (Z.land z 15)
  end.

(** The number of hexadecimal digits of [z] (at least one), for z < 2^64. *)
Fixpoint hex_len_aux (fuel : nat) (z : Z) : nat :=
  match fuel with
  | O => O
  | S f => if z <? 16 then 1%nat else S (hex_len_aux f (Z.shiftr z 4))
  end.
Definition hex_len (z : Z) : nat := hex_len_aux 16 z.

(** Little-endian decimal digits of [n], for 0 <= n < 10^fuel. *)
Fixpoint digits_rev (fuel : nat) (n : Z) : list Z :=
  match fuel with
  | O => []
  | S f => if n <? 10 then [n] else (n mod 10) :: digits_rev f (n / 10)
  end.

Definition string_of_digits (ds : list Z) : string :=
  fold_right (fun d s => byte_str (48 + d) +++ s) EmptyString ds.

(** fmt's %d on an integer (up to 20 digits: every Go int64 or uint64). *)
Definition itoa (z : Z) : string :=
  if z <? 0 then "-" +++ string_of_digits (rev (digits_rev 20 (- z)))
  else string_of_digits (rev (digits_rev 20 z)).

Definition itoa_nat (n : nat) : string := itoa (Z.of_nat n).

Section Lexer.

Variable uni : UnicodeHi.

(** unicode.IsLetter: the Latin-1 table for uint32(r) <= 0xFF, the range tables
    otherwise; negative runes are in no table. *)
Definition IsLetter (r : Z) : bool :=
  if (0 <=? r) && (r <=? 255) then latin1_letter r
  else if r <? 0 then false else letter_hi uni r.

(** unicode.IsDigit *)
Definition IsDigit (r : Z) : bool :=
  if r <=? 255 then (48 <=? r) && (r <=? 57) else digit_hi uni r.

(** strconv.IsPrint *)
Definition IsPrint (r : Z) : bool :=
  if r <=? 255 then
    ((32 <=? r) && (r <=? 126)) || ((161 <=? r) && (r <=? 255) && negb (r =? 173))
  else print_hi uni r.

(** strconv's appendEscapedRune, quoting with the double quote, ASCIIonly and graphicOnly false. *)
Definition appendEscapedRune (r : Z) : string :=
  if (r =? 34) || (r =? 92) then "\" +++ utf8_EncodeRune r
  else if IsPrint r then utf8_EncodeRune r
  else if r =? 7 then "\a"
  else if r =? 8 then "\b"
  else if r =? 12 then "\f"
  else if r =? 10 then "\n"
  else if r =? 13 then "\r"
  else if r =? 9 then "\t"
  else if r =? 11 then "\v"
  else if (r <? 32) || (r =? 127) then "\x" +++ hex_fixed false 2 r
  else
    let r := if ValidRune r then r else RuneError in
    if r <? 65536 then "\u" +++ hex_fixed false 4 r
    else "\U" +++ hex_fixed false 8 r.

Fixpoint quote_loop (fuel : nat) (s : string) (i : nat) : string :=
  match fuel with
  | O => EmptyString
  | S f =>
    match byte_at s i with
    | None => EmptyString
    | Some b0 =>
      let '(r, w) := if b0 <? 128 then (b0, 1%nat) else utf8_DecodeRuneInString s i in
      (if Nat.eqb w 1 && (r =? RuneError) then "\x" +++ hex_fixed false 2 b0
       else appendEscapedRune r)
      +++ quote_loop f s (i + w)
    end
  end.

(** strconv.Quote, the %q verb of fmt. *)
Definition Quote (s : string) : string :=
  dquote +++ quote_loop (String.length s) s 0 +++ dquote.

(** fmt's truncateString: the first [n] runes of [s] (the precision of %.10q). *)
Fixpoint truncate_loop (fuel n : nat) (s : string) (i : nat) : nat :=
  match fuel, n with
  | O, _ => i
  | _, O => i
  | S f, S n' =>
    match byte_at s i with
    | None => i
    | Some _ => let '(_, w) := utf8_DecodeRuneInString s i in truncate_loop f n' s (i + w)
    end
  end.
Definition truncateString (n : nat) (s : string) : string :=
  substring 0 (truncate_loop (String.length s) n s 0) s.

(** fmt's %#U: "U+" and at least four upper-case hex digits of the rune
    sign-extended to uint64, then the quoted rune when it is printable. *)
Definition fmtU (r : Z) : string :=
  let u := if r <? 0 then r + 2 ^ 64 else r in
  "U+" +++ hex_fixed true (Nat.max 4 (hex_len u)) u
  +++ (if (u <=? MaxRune) && IsPrint u then " '" +++ utf8_EncodeRune u +++ "'" else EmptyString).

(** ** Tokens (lex.go) *)

Inductive tokenType :=
| tokenError | tokenEOF
| tokenBool | tokenNumber | tokenRawchar | tokenQuote
| tokenIdentifier | tokenOperator | tokenLeftParen | tokenRightParen
| tokenLeftCurly | tokenRightCurly | tokenLeftSquare | tokenRightSquare
| tokenComposition | tokenEndline | tokenSeperator | tokenAssignment | tokenVarArray
| tokenKeyDelim | tokenKeyword | tokenDClass | tokenStruct
| tokenTypeDelim | tokenInt8 | tokenInt16 | tokenInt32 | tokenInt64
| tokenUint8 | tokenUint16 | tokenUint32 | tokenUint64
| tokenFloat | tokenString | tokenBlob | tokenChar.

(** The iota values of the constants. *)
Definition tokenType_val (t : tokenType) : Z :=
  match t with
  | tokenError => 0 | tokenEOF => 1
  | tokenBool => 2 | tokenNumber => 3 | tokenRawchar => 4 | tokenQuote => 5
  | tokenIdentifier => 6 | tokenOperator => 7 | tokenLeftParen => 8 | tokenRightParen => 9
  | tokenLeftCurly => 10 | tokenRightCurly => 11 | tokenLeftSquare => 12 | tokenRightSquare => 13
  | tokenComposition => 14 | tokenEndline => 15 | tokenSeperator => 16 | tokenAssignment => 17
  | tokenVarArray => 18
  | tokenKeyDelim => 19 | tokenKeyword => 20 | tokenDClass => 21 | tokenStruct => 22
  | tokenTypeDelim => 23 | tokenInt8 => 24 | tokenInt16 => 25 | tokenInt32 => 26
  | tokenInt64 => 27 | tokenUint8 => 28 | tokenUint16 => 29 | tokenUint32 => 30
  | tokenUint64 => 31 | tokenFloat => 32 | tokenString => 33 | tokenBlob => 34 | tokenChar => 35
  end.

Definition tokenType_eqb (a b : tokenType) : bool := tokenType_val a =? tokenType_val b.

Record token := mkToken {
  typ : tokenType;   (** the type of this token *)
  tpos : nat;        (** starting position, in bytes, of this token in the input *)
  val : string       (** the value of this token *)
}.

(** The map [key]: a missing word reads as the zero value, tokenError. *)
Definition key (word : string) : tokenType :=
  if String.eqb word "keyword" then tokenKeyword
  else if String.eqb word "dclass" then tokenDClass
  else if String.eqb word "struct" then tokenStruct
  else if String.eqb word "int8" then tokenInt8
  else if String.eqb word "int16" then tokenInt16
  else if String.eqb word "int32" then tokenInt32
  else if String.eqb word "int64" then tokenInt64
  else if String.eqb word "uint8" then tokenUint8
  else if String.eqb word "uint16" then tokenUint16
  else if String.eqb word "uint32" then tokenUint32
  else if String.eqb word "uint64" then tokenUint64
  else if String.eqb word "float64" then tokenFloat
  else if String.eqb word "string" then tokenString
  else if String.eqb word "blob" then tokenBlob
  else if String.eqb word "char" then tokenChar
  else tokenError.

(** token.String *)
Definition token_String (t : token) : string :=
  match typ t with
  | tokenEOF => "EOF"
  | tokenError => val t
  | k => if tokenType_val tokenKeyDelim <? tokenType_val k then "<" +++ val t +++ ">"
         else if (10 <? String.length (val t))%nat
         then Quote (truncateString 10 (val t)) +++ "..."
         else Quote (val t)
  end.

(** ** The lexer state (lex.go)

    Only the fields the scanning goroutine uses; [lastPos], [peekedToken] and
    [hasPeeked], which only the parser side touches, live in [chan_state]. *)
Record lexer := mkLexer {
  input : string;       (** the string being scanned *)
  pos : nat;            (** current position in the input *)
  start : nat;          (** start position of this token *)
  width : nat;          (** width of last rune read from input *)
  parenDepth : Z;       (** nesting depth of ( ) exprs *)
  curlyDepth : Z;       (** nesting depth of { } blocks *)
  squareDepth : Z;      (** nesting depth of [ ] arrays *)
  canBackup : bool      (** if backup has been called for this rune *)
}.

Definition with_pos (l : lexer) (p : nat) : lexer :=
  mkLexer (input l) p (start l) (width l) (parenDepth l) (curlyDepth l) (squareDepth l) (canBackup l).
Definition with_start (l : lexer) (s : nat) : lexer :=
  mkLexer (input l) (pos l) s (width l) (parenDepth l) (curlyDepth l) (squareDepth l) (canBackup l).
Definition with_depths (l : lexer) (pd cd sd : Z) : lexer :=
  mkLexer (input l) (pos l) (start l) (width l) pd cd sd (canBackup l).

(** lexer.next *)
Definition lexer_next (l : lexer) : Z * lexer :=
  if (String.length (input l) <=? pos l)%nat then
    (eof, mkLexer (input l) (pos l) (start l) 0 (parenDepth l) (curlyDepth l)
            (squareDepth l) (canBackup l))
  else
    let '(r, w) := utf8_DecodeRuneInString (input l) (pos l) in
    (r, mkLexer (input l) (pos l + w) (start l) w (parenDepth l) (curlyDepth l)
          (squareDepth l) true).

(** lexer.backup *)
Definition lexer_backup (l : lexer) : lexer :=
  if canBackup l then
    mkLexer (input l) (pos l - width l) (start l) (width l) (parenDepth l) (curlyDepth l)
      (squareDepth l) false
  else l.

(** lexer.peek *)
Definition lexer_peek (l : lexer) : Z * lexer :=
  let '(r, l) := lexer_next l in (r, lexer_backup l).

(** lexer.emit: the token sent on the channel, and the lexer afterwards. *)
Definition emit (k : tokenType) (l : lexer) : token * lexer :=
  (mkToken k (start l) (substring (start l) (pos l - start l) (input l)), with_start l (pos l)).

(** lexer.ignore *)
Definition ignore (l : lexer) : lexer := with_start l (pos l).

(** strings.IndexRune(valid, r) >= 0, for the ASCII sets the lexer uses. *)
Definition in_valid (valid : string) (r : Z) : bool :=
  existsb (fun c => rune_of c =? r) (list_ascii_of_string valid).

(** lexer.accept *)
Definition accept (valid : string) (l : lexer) : bool * lexer :=
  let '(r, l) := lexer_next l in
  if in_valid valid r then (true, l) else (false, lexer_backup l).

(** lexer.acceptRun; every iteration of the loop consumes a byte, so
    [String.length input + 1] rounds are enough. *)
Fixpoint acceptRun_loop (fuel : nat) (valid : string) (l : lexer) : lexer :=
  match fuel with
  | O => l
  | S f =>
    let '(r, l) := lexer_next l in
    if in_valid valid r then acceptRun_loop f valid l else lexer_backup l
  end.
Definition acceptRun (valid : string) (l : lexer) : lexer :=
  acceptRun_loop (S (String.length (input l))) valid l.

(** The state functions of the scanner. *)
Inductive stateFn :=
| LexAny | LexComment | LexBlockComment | LexSpace
| LexIdentifier | LexQuote | LexChar | LexNumber.

(** What one state function does: the tokens it sends, the lexer afterwards,
    and the next state ([None] is the nil state that ends [run]). *)
Definition stepResult : Type := (list token * lexer * option stateFn)%type.

(** lexer.errorf: sends an error token and returns the nil state. *)
Definition errorf (l : lexer) (msg : string) : stepResult :=
  ([mkToken tokenError (start l) msg], l, None).

Definition emit_any (k : tokenType) (l : lexer) : stepResult :=
  let '(t, l) := emit k l in ([t], l, Some LexAny).

(** isSpace, isEndOfLine, isAlphaNumeric, isOperator *)
Definition isSpace (r : Z) : bool := (r =? 32) || (r =? 9).
Definition isEndOfLine (r : Z) : bool := (r =? 13) || (r =? 10).
Definition isAlphaNumeric (r : Z) : bool := (r =? 95) || IsLetter r || IsDigit r.
Definition isOperator (r : Z) : bool :=
  (r =? 43) || (r =? 45) || (r =? 42) || (r =? 47) || (r =? 37) || (r =? 61).

Definition is_digit_rune (r : Z) : bool := (48 <=? r) && (r <=? 57).

(** The [switch] of lexAny, after the square-bracket prologue. *)
Definition lexAny_switch (l : lexer) : stepResult :=
  let '(r, l) := lexer_next l in
  if r =? eof then
    if 0 <? parenDepth l then errorf l "unclosed left paren"
    else if 0 <? curlyDepth l then errorf l "unclosed right paren"
    else let '(t, l) := emit tokenEOF l in ([t], l, None)
  else if isSpace r || isEndOfLine r then ([], l, Some LexSpace)
  else if (r =? rune_of "."%char) || is_digit_rune r then ([], lexer_backup l, Some LexNumber)
  else if isAlphaNumeric r then ([], lexer_backup l, Some LexIdentifier)
  else if r =? rune_of "/"%char then
    let '(r2, l) := lexer_peek l in
    if r2 =? rune_of "/"%char then let '(_, l) := lexer_next l in ([], l, Some LexComment)
    else
      let '(r3, l) := lexer_peek l in
      if r3 =? rune_of "*"%char then let '(_, l) := lexer_next l in ([], l, Some LexBlockComment)
      else emit_any tokenOperator l
  else if r =? rune_of "="%char then emit_any tokenAssignment l
  else if isOperator r then emit_any tokenOperator l
  else if r =? rune_of ":"%char then emit_any tokenComposition l
  else if r =? rune_of ","%char then emit_any tokenSeperator l
  else if r =? rune_of "("%char then
    let '(t, l) := emit tokenLeftParen l in
    ([t], with_depths l (parenDepth l + 1) (curlyDepth l) (squareDepth l), Some LexAny)
  else if r =? rune_of ")"%char then
    let '(t, l) := emit tokenRightParen l in
    let l := with_depths l (parenDepth l - 1) (curlyDepth l) (squareDepth l) in
    if parenDepth l <? 0 then
      let '(ts, l, nx) := errorf l ("unexpected right paren " +++ fmtU r) in (t :: ts, l, nx)
    else ([t], l, Some LexAny)
  else if r =? rune_of "{"%char then
    let '(t, l) := emit tokenLeftCurly l in
    ([t], with_depths l (parenDepth l) (curlyDepth l + 1) (squareDepth l), Some LexAny)
  else if r =? rune_of "}"%char then
    let '(t, l) := emit tokenRightCurly l in
    let l := with_depths l (parenDepth l) (curlyDepth l - 1) (squareDepth l) in
    if parenDepth l <? 0 then
      let '(ts, l, nx) := errorf l ("unexpected right curly " +++ fmtU r) in (t :: ts, l, nx)
    else ([t], l, Some LexAny)
  else if r =? 34 then ([], l, Some LexQuote)
  else if r =? rune_of "'"%char then ([], l, Some LexChar)
  else if r =? rune_of "["%char then
    let '(rn, l) := lexer_peek l in
    if (rn =? rune_of "."%char) || is_digit_rune rn then
      let '(t, l) := emit tokenLeftSquare l in
      ([t], with_depths l (parenDepth l) (curlyDepth l) (squareDepth l + 1), Some LexNumber)
    else if negb (rn =? rune_of "]"%char) then
      errorf l ("unexpected character: " +++ fmtU rn +++ ", following '['")
    else let '(_, l) := lexer_next l in emit_any tokenVarArray l
  else if r =? rune_of ";"%char then emit_any tokenEndline l
  else if isOperator r then emit_any tokenOperator l
  else errorf l ("unexpected character: " +++ fmtU r).

(** lexAny *)
Definition lexAny (l : lexer) : stepResult :=
  if 0 <? squareDepth l then
    let '(r, l) := lexer_next l in
    if r =? rune_of "]"%char then
      let '(t, l) := emit tokenRightSquare l in
      let '(ts, l, nx) := lexAny_switch l in (t :: ts, l, nx)
    else errorf l "found opening '[' without matching ']' for array type definition."
  else lexAny_switch l.

(** The first byte offset [j >= i] satisfying [p], looking at most [fuel] bytes. *)
Fixpoint find_from (fuel : nat) (p : nat -> bool) (i : nat) : option nat :=
  match fuel with
  | O => None
  | S f => if p i then Some i else find_from f p (S i)
  end.

(** strings.IndexAny(l.input[l.pos:], "\r\n"), an ASCII set: a byte scan. *)
Definition index_endline (s : string) (from : nat) : option nat :=
  match find_from (String.length s - from) (fun j =>
          match byte_at s j with Some b => (b =? 13) || (b =? 10) | None => false end) from with
  | Some j => Some (j - from)%nat
  | None => None
  end.

(** strings.Index(l.input[l.pos:], "*/") *)
Definition index_block_end (s : string) (from : nat) : option nat :=
  match find_from (String.length s - from) (fun j =>
          match byte_at s j, byte_at s (S j) with
          | Some a, Some b => (a =? 42) && (b =? 47)
          | _, _ => false
          end) from with
  | Some j => Some (j - from)%nat
  | None => None
  end.

(** lexComment: [len(rightComment)] is 1. *)
Definition lexComment (l : lexer) : stepResult :=
  match index_endline (input l) (pos l) with
  | None => errorf l "no new line after comment"
  | Some i => ([], ignore (with_pos l (pos l + i + 1)), Some LexAny)
  end.

(** lexBlockComment *)
Definition lexBlockComment (l : lexer) : stepResult :=
  match index_block_end (input l) (pos l) with
  | None => errorf l "unclosed block comment"
  | Some i => ([], ignore (with_pos l (pos l + i + 2)), Some LexAny)
  end.

(** The loop of lexSpace: [for isSpace(l.peek()) || isEndOfLine(l.peek()) { l.next() }]. *)
Fixpoint lexSpace_loop (fuel : nat) (l : lexer) : lexer :=
  match fuel with
  | O => l
  | S f =>
    let '(r1, l) := lexer_peek l in
    if isSpace r1 then let '(_, l) := lexer_next l in lexSpace_loop f l
    else
      let '(r2, l) := lexer_peek l in
      if isEndOfLine r2 then let '(_, l) := lexer_next l in lexSpace_loop f l
      else l
  end.

(** lexSpace *)
Definition lexSpace (l : lexer) : stepResult :=
  ([], ignore (lexSpace_loop (S (String.length (input l))) l), Some LexAny).

(** lexer.atTerminator *)
Definition atTerminator (l : lexer) : bool * lexer :=
  let '(r, l) := lexer_peek l in
  (isSpace r || isEndOfLine r || isOperator r
   || (r =? eof) || (r =? rune_of ","%char) || (r =? rune_of ":"%char)
   || (r =? rune_of ";"%char) || (r =? rune_of ")"%char) || (r =? rune_of "("%char)
   || (r =? rune_of "{"%char) || (r =? rune_of "}"%char) || (r =? rune_of "["%char), l).

(** The loop of lexIdentifier, up to the first rune that is not
    alphanumeric: that rune, and the lexer backed up before it. *)
Fixpoint lexIdentifier_loop (fuel : nat) (l : lexer) : Z * lexer :=
  match fuel with
  | O => (eof, l)
  | S f =>
    let '(r, l) := lexer_next l in
    if isAlphaNumeric r then lexIdentifier_loop f l else (r, lexer_backup l)
  end.

(** lexIdentifier *)
Definition lexIdentifier (l : lexer) : stepResult :=
  let '(r, l) := lexIdentifier_loop (S (String.length (input l))) l in
  let word := substring (start l) (pos l - start l) (input l) in
  let '(term, l) := atTerminator l in
  if negb term then errorf l ("bad character in identifier " +++ fmtU r)
  else if tokenType_val tokenKeyDelim <? tokenType_val (key word) then emit_any (key word) l
  else if String.eqb word "true" || String.eqb word "false" then emit_any tokenBool l
  else emit_any tokenIdentifier l.

(** The loop shared by lexQuote and lexChar: [true] when the closing rune was
    read, [false] on an unterminated literal. *)
Fixpoint lexQuoted_loop (fuel : nat) (closing : Z) (l : lexer) : bool * lexer :=
  match fuel with
  | O => (true, l)
  | S f =>
    let '(r, l) := lexer_next l in
    if r =? 92 then
      let '(r2, l) := lexer_next l in
      if negb (r2 =? eof) && negb (r2 =? 10) then lexQuoted_loop f closing l
      else (false, l)
    else if (r =? eof) || (r =? 10) then (false, l)
    else if r =? closing then (true, l)
    else lexQuoted_loop f closing l
  end.

(** lexQuote *)
Definition lexQuote (l : lexer) : stepResult :=
  let '(ok, l) := lexQuoted_loop (S (String.length (input l))) 34 l in
  if ok then emit_any tokenQuote l else errorf l "unterminated string".

(** lexChar *)
Definition lexChar (l : lexer) : stepResult :=
  let '(ok, l) := lexQuoted_loop (S (String.length (input l))) (rune_of "'"%char) l in
  if ok then emit_any tokenRawchar l else errorf l "unterminated character constant".

Definition decimalDigits : string := "0123456789".
Definition hexadecimalDigits : string := "0123456789abcdefABCDEF".
Definition octalDigits : string := "01234567".
Definition binaryDigits : string := "01".
Definition decimalEncode : string := "".
Definition hexadecimalEncode : string := "0x".
Definition octalEncode : string := "0".
Definition binaryEncode : string := "0b".

(** lexNumber *)
Definition lexNumber (l : lexer) : stepResult :=
  let '(a0, l) := accept "0" l in
  let '(encode, digits, l) :=
    if a0 then
      let '(ax, l) := accept "xX" l in
      if ax then (hexadecimalEncode, hexadecimalDigits, l)
      else
        let '(ab, l) := accept "bB" l in
        if ab then (binaryEncode, binaryDigits, l) else (octalEncode, octalDigits, l)
    else (decimalEncode, decimalDigits, l) in
  let l := acceptRun digits l in
  let '(adot, l) := accept "." l in
  let frac : stepResult + lexer :=
    if adot then
      if negb (String.eqb digits decimalDigits) then
        inl (errorf l ("non-decimal number (starting with '" +++ encode
                       +++ "') cannot contain a decimal point."))
      else inr (acceptRun digits l)
    else inr l in
  match frac with
  | inl e => e
  | inr l =>
    let '(r, l) := lexer_peek l in
    if isAlphaNumeric r then
      let '(_, l) := lexer_next l in
      errorf l ("bad number syntax: " +++ Quote (substring (start l) (pos l - start l) (input l)))
    else emit_any tokenNumber l
  end.

Definition step (s : stateFn) (l : lexer) : stepResult :=
  match s with
  | LexAny => lexAny l
  | LexComment => lexComment l
  | LexBlockComment => lexBlockComment l
  | LexSpace => lexSpace l
  | LexIdentifier => lexIdentifier l
  | LexQuote => lexQuote l
  | LexChar => lexChar l
  | LexNumber => lexNumber l
  end.

(** lexer.run: [for l.state = lexAny; l.state != nil; { l.state = l.state(l) }],
    as the sequence of tokens sent on the channel. *)
Fixpoint run (fuel : nat) (s : stateFn) (l : lexer) : list token :=
  match fuel with
  | O => []
  | S f =>
    let '(ts, l, nx) := step s l in
    ts ++ match nx with None => [] | Some s' => run f s' l end
  end.

(** lex: the initial lexer. *)
Definition lex_init (input : string) : lexer := mkLexer input 0 0 0 0 0 0 false.

(** The whole token sequence of an input.  Every two state transitions consume
    at least one byte, so [2 * length + 2] transitions reach the nil state. *)
Definition lex_tokens (input : string) : list token :=
  run (2 * String.length input + 2) LexAny (lex_init input).

End Lexer.

(** ** The schema model (types.go, Class.go, File.go) *)

(** type keywords []string *)
Definition keywords : Type := list string.

(** keywords.HasKeyword *)
Definition HasKeyword (k : keywords) (keyword : string) : bool :=
  existsb (String.eqb keyword) k.

(** keywords.AddKeyword has a value receiver: [k = append(k, keyword)]
    rebinds the method's own copy of the slice header.  The function returns
    that copy; the slice of the caller is left as it was. *)
Definition keywords_AddKeyword (k : keywords) (keyword : string) : keywords :=
  if HasKeyword k keyword then k else k ++ [keyword].

(** var definedKeywords (Class.go) *)
Definition definedKeywords : keywords :=
  ["required"; "ram"; "broadcast"; "clrecv"; "clsend"; "ownrecv"; "ownsend"; "airecv"; "db"]%string.

Inductive typeKind := ClassKind | StructKind.

(** typeBase, with the kind of the concrete type (Class or Struct); the
    back-pointer [dcf] is the File that holds the entry. *)
Record typeBase := mkTypeBase { tkind : typeKind; tname : string; tindex : nat }.

(** fieldBase *)
Record fieldBase := mkFieldBase { fname : string; findex : nat; fkeywords : keywords }.

(** File: [ClassByName] is a Go map, [None] when nil (the zero value). *)
Record File := mkFile {
  Classes : list typeBase;
  Fields : list fieldBase;
  ClassByName : option (list (string * nat));
  file_keywords : keywords
}.

(** new(File) *)
Definition new_File : File := mkFile [] [] None [].

(** File.Hash, a uint64 (TODO in the source: it returns 0). *)
Definition File_Hash (f : File) : Z := 0.

(** ** Outcomes of parser code *)

Inductive outcome (A : Type) : Type :=
| Done (a : A)
| Blocked              (** a receive on the token channel that no send will ever match *)
| Panic (msg : string) (** a Go panic *)
| NoFuel.              (** the loop bound of the model was reached *)
Arguments Done {A} a.
Arguments Blocked {A}.
Arguments Panic {A} msg.
Arguments NoFuel {A}.

(** File.AddType *)
Definition File_AddType (f : File) (name typ : string) : outcome (option typeBase * File) :=
  let mk k :=
    let t := mkTypeBase k name (List.length (Classes f)) in
    match ClassByName f with
    | None => Panic "assignment to entry in nil map"
    | Some m => Done (Some t, mkFile (Classes f ++ [t]) (Fields f)
                                 (Some ((name, tindex t) :: m)) (file_keywords f))
    end in
  if String.eqb typ "class" then mk ClassKind
  else if String.eqb typ "struct" then mk StructKind
  else Done (None, f).

(** Modelled from the spec: parse.go reads [p.dcf.Structs[name]] and calls
    [p.dcf.AddStruct(name)], but File.go declares neither.  Following the spec
    (one mapping from type name to Type for Classes and Structs), [Structs] is
    read as the struct entries of [ClassByName] and [AddStruct] as
    [AddType(name, "struct")]. *)
Definition File_Structs_has (f : File) (name : string) : bool :=
  match ClassByName f with
  | None => false
  | Some m =>
    match find (fun e => String.eqb (fst e) name) m with
    | Some (_, i) =>
      match nth_error (Classes f) i with
      | Some t => match tkind t with StructKind => true | ClassKind => false end
      | None => false
      end
    | None => false
    end
  end.

Section Parser.

Variable uni : UnicodeHi.

(** The parser side of the lexer: the unread part of the token channel
    (the goroutine's whole output, see [lex_tokens]) and the fields of
    [lexer] that only the parser touches. *)
Record chan_state := mkChan {
  ch_toks : list token;
  hasPeeked : bool;
  peekedToken : token;
  lastPos : nat;
  ch_input : string
}.

(** What the parser methods share through pointers: [p.lex] and [p.dcf]. *)
Record pstate := mkP { plex : chan_state; pdcf : File }.

Definition M (A : Type) : Type := pstate -> outcome (A * pstate).

Definition ret {A} (a : A) : M A := fun s => Done (a, s).

Definition bind {A B} (m : M A) (k : A -> M B) : M B := fun s =>
  match m s with
  | Done (a, s') => k a s'
  | Blocked => Blocked
  | Panic e => Panic e
  | NoFuel => NoFuel
  end.

Notation "x <- m ;; k" := (bind m (fun x => k)) (at level 61, m at next level, right associativity).

Definition get : M pstate := fun s => Done (s, s).
Definition nofuel {A} : M A := fun _ => NoFuel.

(** lexer.nextToken *)
Definition lex_nextToken : M token := fun s =>
  let c := plex s in
  if hasPeeked c then
    Done (peekedToken c, mkP (mkChan (ch_toks c) false (peekedToken c) (tpos (peekedToken c))
                               (ch_input c)) (pdcf s))
  else
    match ch_toks c with
    | [] => Blocked
    | t :: r => Done (t, mkP (mkChan r false (peekedToken c) (tpos t) (ch_input c)) (pdcf s))
    end.

(** lexer.peekToken *)
Definition lex_peekToken : M token := fun s =>
  let c := plex s in
  if hasPeeked c then Done (peekedToken c, s)
  else
    match ch_toks c with
    | [] => Blocked
    | t :: r => Done (t, mkP (mkChan r true t (lastPos c) (ch_input c)) (pdcf s))
    end.

Definition count_newlines (s : string) : nat :=
  List.length (filter (fun c => Nat.eqb (nat_of_ascii c) 10) (list_ascii_of_string s)).

(** lexer.lineNumber *)
Definition lex_lineNumber : M nat := fun s =>
  Done (1 + count_newlines (substring 0 (lastPos (plex s)) (ch_input (plex s))), s)%nat.

(** The parser struct.  Every method has a value receiver, so each call works
    on its own copy of this record: appends to [errors] and the update of
    [foundEOF] are lost when the method returns.  The three maps are Go maps,
    shared by the copies, but they are nil and no method writes them. *)
Record parser := mkParser {
  expectedKeywords : option (list (string * nat));
  expectedStructs : option (list (string * nat));
  expectedClasses : option (list (string * nat));
  errors : list string;
  foundEOF : bool
}.

Definition add_error (p : parser) (e : string) : parser :=
  mkParser (expectedKeywords p) (expectedStructs p) (expectedClasses p) (errors p ++ [e]) (foundEOF p).

(** Newline and tab, for the Go escapes \n and \t. *)
Definition nl_tab : string := String (ascii_of_nat 10) (String (ascii_of_nat 9) EmptyString).

(** The map tokenName (a missing entry reads as the empty string). *)
Definition tokenName (k : tokenType) : string :=
  match k with
  | tokenError => "error" | tokenEOF => "EOF"
  | tokenBool => "bool" | tokenRawchar => "char-constant" | tokenNumber => "number"
  | tokenQuote => "quoted-string"
  | tokenIdentifier => "identifier" | tokenOperator => "<op>"
  | tokenLeftParen => "(" | tokenRightParen => ")" | tokenLeftCurly => "{" | tokenRightCurly => "}"
  | tokenComposition => ":" | tokenEndline => ";" | tokenSeperator => "," | tokenAssignment => "="
  | tokenVarArray => "[]"
  | tokenKeyword => "keyword" | tokenDClass => "dclass" | tokenStruct => "struct"
  | tokenInt8 => "int8" | tokenInt16 => "int16" | tokenInt32 => "int32" | tokenInt64 => "int64"
  | tokenUint8 => "uint8" | tokenUint16 => "uint16" | tokenUint32 => "uint32"
  | tokenUint64 => "uint65"
  | tokenFloat => "float64" | tokenString => "string" | tokenBlob => "blob" | tokenChar => "char"
  | tokenLeftSquare | tokenRightSquare | tokenKeyDelim | tokenTypeDelim => ""
  end.

(** lexError, parseError, definitionError, runtimeError *)
Definition lexError (t : token) (line : nat) : string :=
  "lex error(line: " +++ itoa_nat line +++ "): " +++ token_String uni t.
Definition parseError (msg : string) (line : nat) : string :=
  "parse error(line: " +++ itoa_nat line +++ "): " +++ msg.
Definition definitionError (identifier : string) (k : tokenType) (firstUsed : nat) : string :=
  "definition error: " +++
  ("used " +++ tokenName k +++ " '" +++ identifier +++ "', but '" +++ identifier
   +++ "' was never defined") +++ (nl_tab +++ " first used on line: " +++ itoa_nat firstUsed).
Definition runtimeError (msg : string) : string := "runtime error: " +++ msg.

(** parser.next: the receiver's [foundEOF] is a copy, so setting it when an
    EOF token is read has no lasting effect. *)
Definition p_next (p : parser) : M token :=
  if foundEOF p then fun _ => Panic (runtimeError "eof not handled by parser, this is a bug in dcparser")
  else t <- lex_nextToken ;; ret t.

(** parser.peek *)
Definition p_peek (p : parser) : M token := lex_peekToken.

Definition is_typ (k : tokenType) (t : token) : bool := tokenType_eqb (typ t) k.

(** isDataTypeToken *)
Definition isDataTypeToken (t : token) : bool :=
  tokenType_val tokenTypeDelim <? tokenType_val (typ t).

(** The consuming loop of expectEndline and expectRightCurly: read tokens up to
    one of type [stop], EOF or error; the flag records whether no extra
    token was read. *)
Fixpoint skip_loop (fuel : nat) (stop : tokenType) (p : parser) (t : token) (first : bool)
  : M (token * bool) :=
  match fuel with
  | O => nofuel
  | S f =>
    if is_typ stop t || is_typ tokenEOF t || is_typ tokenError t then ret (t, first)
    else t <- p_next p ;; skip_loop f stop p t false
  end.

(** parser.expectEndline *)
Definition expectEndline (fuel : nat) (p : parser) (startline : nat) : M bool :=
  t <- p_next p ;;
  r <- skip_loop fuel tokenEndline p t true ;;
  let '(t, next) := r in
  fp <- (match typ t with
         | tokenEOF => ret (true, p)
         | tokenError => ln <- lex_lineNumber ;; ret (true, add_error p (lexError t ln))
         | _ => ret (false, p)
         end) ;;
  let '(fail, p) := fp in
  let p := if next || fail
           then add_error p (parseError "missing semicolon (;) at end of statement" startline)
           else p in
  ret (negb fail).

(** parser.expectRightCurly *)
Definition expectRightCurly (fuel : nat) (p : parser) (leftline : nat) : M bool :=
  t <- p_next p ;;
  r <- skip_loop fuel tokenRightCurly p t true ;;
  let '(t, _) := r in
  fp <- (match typ t with
         | tokenEOF => ret (true, p)
         | tokenError => ln <- lex_lineNumber ;; ret (true, add_error p (lexError t ln))
         | _ => ret (false, p)
         end) ;;
  let '(fail, p) := fp in
  if fail then
    ln <- lex_lineNumber ;;
    let p := add_error p (parseError ("missing closing curly brace (}) at end of block starting on line "
                                      +++ itoa_nat leftline) ln) in
    ret (negb fail)
  else ret (negb fail).

(** DataType (types.go) and typeFromToken *)
Inductive DataType :=
| InvalidType | Int8Type | Int16Type | Int32Type | Int64Type
| Uint8Type | Uint16Type | Uint32Type | Uint64Type
| FloatType | StringType | BlobType | CharType | StructType.

Definition typeFromToken (t : token) : DataType :=
  match typ t with
  | tokenInt8 => Int8Type | tokenInt16 => Int16Type | tokenInt32 => Int32Type
  | tokenInt64 => Int64Type | tokenUint8 => Uint8Type | tokenUint16 => Uint16Type
  | tokenUint32 => Uint32Type | tokenUint64 => Uint64Type | tokenFloat => FloatType
  | tokenString => StringType | tokenBlob => BlobType | tokenChar => CharType
  | tokenIdentifier => StructType
  | _ => InvalidType
  end.

(** parseAtomic, parseMolecular, parseParameter: TODO stubs in the source. *)
Definition parseAtomic (ident : string) (obj : typeBase) : M bool := ret true.
Definition parseMolecular (ident : string) (obj : typeBase) : M bool := ret true.
Definition parseParameter (typTok : token) (obj : typeBase) (isArgument : bool) : M bool :=
  let dataType := typeFromToken typTok in ret true.

(** parser.parseField *)
Definition parseField (fuel : nat) (p : parser) (obj : typeBase) : M bool :=
  t <- p_next p ;;
  if is_typ tokenIdentifier t then
    t2 <- p_peek p ;;
    match typ t2 with
    | tokenLeftParen => parseAtomic (val t) obj
    | tokenComposition => parseMolecular (val t) obj
    | _ => parseParameter t obj false
    end
  else if isDataTypeToken t then parseParameter t obj false
  else
    ln <- lex_lineNumber ;;
    let p := add_error p (parseError ("expecting a field, found " +++ token_String uni t) ln) in
    ln2 <- lex_lineNumber ;;
    expectEndline fuel p ln2.

(** The loop of parseStructInner.  [t] is read once before the loop and never
    again, as in the source.  [true]: the loop ended; [false]: parseField
    failed and parseStructInner returns false. *)
Fixpoint parseStructInner_loop (fuel : nat) (p : parser) (s : typeBase) (t : token) : M bool :=
  match fuel with
  | O => nofuel
  | S f =>
    if negb (is_typ tokenRightCurly t) && negb (is_typ tokenEOF t) && negb (is_typ tokenError t)
    then ok <- parseField fuel p s ;; if ok then parseStructInner_loop f p s t else ret false
    else ret true
  end.

(** parser.parseStructInner *)
Definition parseStructInner (fuel : nat) (p : parser) (s : typeBase) : M bool :=
  t <- p_next p ;;
  match typ t with
  | tokenEOF =>
    ln <- lex_lineNumber ;;
    let p := add_error p (parseError "incomplete 'struct' declaration, found EOF" ln) in ret false
  | tokenError =>
    ln <- lex_lineNumber ;; let p := add_error p (lexError t ln) in ret false
  | tokenLeftCurly =>
    t <- p_peek p ;;
    cont <- parseStructInner_loop fuel p s t ;;
    if negb cont then ret false
    else
      _ <- p_next p ;;
      match typ t with
      | tokenEOF =>
        ln <- lex_lineNumber ;;
        let p := add_error p (parseError "incomplete 'struct' definition, found EOF" ln) in ret false
      | tokenError =>
        ln <- lex_lineNumber ;; let p := add_error p (lexError t ln) in ret false
      | _ => ln <- lex_lineNumber ;; expectEndline fuel p ln
      end
  | _ =>
    ln <- lex_lineNumber ;;
    let p := add_error p (parseError ("missing '{' after 'struct' declaration, found '"
                                      +++ token_String uni t +++ "'") ln) in
    ret true
  end.

(** [p.dcf.AddStruct(name)], see [File_Structs_has]. *)
Definition File_AddStruct (name : string) : M typeBase := fun s =>
  match File_AddType (pdcf s) name "struct" with
  | Done (Some t, f) => Done (t, mkP (plex s) f)
  | Done (None, _) => Panic "invalid memory address or nil pointer dereference"
  | Blocked => Blocked
  | Panic e => Panic e
  | NoFuel => NoFuel
  end.

(** parser.parseStruct *)
Definition parseStruct (fuel : nat) (p : parser) : M bool :=
  _ <- p_next p ;;
  t <- p_next p ;;
  match typ t with
  | tokenEOF =>
    ln <- lex_lineNumber ;;
    let p := add_error p (parseError "incomplete 'struct' declaration, found EOF" ln) in ret false
  | tokenError =>
    ln <- lex_lineNumber ;; let p := add_error p (lexError t ln) in ret false
  | tokenLeftCurly =>
    ln <- lex_lineNumber ;;
    let p := add_error p (parseError
      "incomplete 'struct' declaration, missing identifier before definition start '{'" ln) in
    ln2 <- lex_lineNumber ;; expectRightCurly fuel p ln2
  | tokenIdentifier =>
    s <- get ;;
    if File_Structs_has (pdcf s) (val t) then
      ln <- lex_lineNumber ;;
      let p := add_error p (parseError ("struct " +++ val t +++ " already defined above") ln) in
      ln2 <- lex_lineNumber ;; expectRightCurly fuel p ln2
    else
      st <- File_AddStruct (val t) ;; parseStructInner fuel p st
  | _ =>
    ln <- lex_lineNumber ;;
    let p := add_error p (parseError ("unexpected '" +++ token_String uni t
                                      +++ "' in 'struct' declaration") ln) in
    ret true
  end.

(** parser.parseClass (TODO in the source). *)
Definition parseClass (fuel : nat) (p : parser) : M bool :=
  _ <- p_next p ;; ret true.

(** parser.parseKeyword: [p.dcf.AddKeyword(t.val)] runs keywords.AddKeyword
    on a copy of the File's slice and its result is dropped. *)
Definition parseKeyword (fuel : nat) (p : parser) : M bool :=
  _ <- p_next p ;;
  t <- p_next p ;;
  match typ t with
  | tokenEOF =>
    ln <- lex_lineNumber ;;
    let p := add_error p (parseError "incomplete 'keyword' declaration, found EOF" ln) in ret false
  | tokenError =>
    ln <- lex_lineNumber ;; let p := add_error p (lexError t ln) in ret false
  | tokenIdentifier =>
    s <- get ;;
    let _ := keywords_AddKeyword (file_keywords (pdcf s)) (val t) in
    ln <- lex_lineNumber ;; expectEndline fuel p ln
  | _ =>
    ln <- lex_lineNumber ;;
    let p := add_error p (parseError ("unexpected '" +++ token_String uni t
                                      +++ "' in 'keyword' declaration") ln) in
    ln2 <- lex_lineNumber ;; expectEndline fuel p ln2
  end.

(** parser.parseDeclaration; the [tokenIdentifier] case falls through to the
    [tokenLeftCurly] case. *)
Definition parseDeclaration (fuel : nat) (p : parser) : M bool :=
  t <- p_peek p ;;
  let curly :=
    _ <- p_next p ;;
    ln <- lex_lineNumber ;;
    let p := add_error p (parseError ("expected a declaration but got '" +++ token_String uni t
                                      +++ "'") ln) in
    ln2 <- lex_lineNumber ;; expectRightCurly fuel p ln2 in
  match typ t with
  | tokenEOF => ret false
  | tokenError =>
    ln <- lex_lineNumber ;; let p := add_error p (lexError t ln) in ret false
  | tokenIdentifier =>
    if String.eqb (val t) (tokenName tokenKeyword) then parseKeyword fuel p
    else if String.eqb (val t) (tokenName tokenStruct) then parseStruct fuel p
    else if String.eqb (val t) (tokenName tokenDClass) then parseClass fuel p
    else curly
  | tokenLeftCurly => curly
  | _ =>
    ln <- lex_lineNumber ;;
    let p := add_error p (parseError ("expected a declaration but got '" +++ token_String uni t
                                      +++ "'") ln) in
    ret true
  end.

(** [for p.parseDeclaration() {}] *)
Fixpoint parse_loop (fuel : nat) (p : parser) : M unit :=
  match fuel with
  | O => nofuel
  | S f => b <- parseDeclaration f p ;; if b then parse_loop f p else ret tt
  end.

(** The [range] loops over an expected-identifier map. *)
Definition definition_errors (m : option (list (string * nat))) (k : tokenType) : list string :=
  match m with
  | None => []
  | Some l => map (fun e => definitionError (fst e) k (snd e)) l
  end.

(** parser.parse: it returns [p.dcf]; the model also returns the receiver's
    error list at the end, which is what the function prints to stderr. *)
Definition parse (fuel : nat) (p : parser) : M (File * list string) :=
  _ <- parse_loop fuel p ;;
  let p := fold_left add_error (definition_errors (expectedKeywords p) tokenKeyword) p in
  let p := fold_left add_error (definition_errors (expectedStructs p) tokenStruct) p in
  let p := fold_left add_error (definition_errors (expectedClasses p) tokenDClass) p in
  s <- get ;; ret (pdcf s, errors p).

(** The zero token, the initial [peekedToken]. *)
Definition zero_token : token := mkToken tokenError 0 "".

(** The state built by Parse: [dcf: new(File), lex: lex(buf.String())]. *)
Definition Parse_init (r : string) : pstate :=
  mkP (mkChan (lex_tokens uni r) false zero_token 0 r) new_File.

Definition parser_init : parser := mkParser None None None [] false.

Definition lift_outcome {A B} (f : A -> B) (o : outcome A) : outcome B :=
  match o with
  | Done a => Done (f a)
  | Blocked => Blocked
  | Panic e => Panic e
  | NoFuel => NoFuel
  end.

(** [p.parse(r)] from Parse: the File and the errors parse prints. *)
Definition parse_run (fuel : nat) (r : string) : outcome (File * list string) :=
  lift_outcome fst (parse fuel parser_init (Parse_init r)).

(** Parse: [return p.parse(r), nil]. *)
Definition Parse (fuel : nat) (r : string) : outcome (File * option string) :=
  lift_outcome (fun x => (fst x, None)) (parse_run fuel r).

End Parser.

(** ** Packed data of a Parameter

    Modelled from the spec: Field.go declares [FormatData] and [ParseString]
    only as methods of the [Field] interface, and no type of the repository
    implements them.  The model follows the spec's wire rule for the unsigned
    integer DataTypes (fixed-width little-endian) and its text form (a bare
    decimal value, or [name = value] when field names are shown).  A packed
    buffer is a list of byte values. *)

(** Width in bytes of an unsigned integer DataType. *)
Definition uint_width (d : DataType) : option nat :=
  match d with
  | Uint8Type => Some 1%nat
  | Uint16Type => Some 2%nat
  | Uint32Type => Some 4%nat
  | Uint64Type => Some 8%nat
  | _ => None
  end.

(** Little-endian packing of [v] on [w] bytes. *)
Fixpoint pack_le (w : nat) (v : Z) : list Z :=
  match w with
  | O => []
  | S w' => Z.land v 255 :: pack_le w' (Z.shiftr v 8)
  end.

Fixpoint unpack_le (bs : list Z) : Z :=
  match bs with
  | [] => 0
  | b :: rest => Z.lor b (Z.shiftl (unpack_le rest) 8)
  end.

(** [pack_bytes_of(v)] for a uint32. *)
Definition pack_uint32 (v : Z) : list Z := pack_le 4 v.

(** Modelled from the spec: a Parameter with its optional Range constraint
    ([Parameter] is a keyword of Rocq). *)
Record Parameter_ := mkParameter {
  pfield : fieldBase;
  dataTyp : DataType;
  prange : option (Z * Z)
}.

(** Modelled from the spec: Parameter.FormatData for the unsigned integer
    DataTypes. *)
Definition FormatData (p : Parameter_) (data : list Z) (showFieldNames : bool) : string :=
  match uint_width (dataTyp p) with
  | Some w =>
    if Nat.eqb (List.length data) w then
      (if showFieldNames then fname (pfield p) +++ " = " else EmptyString) +++ itoa (unpack_le data)
    else EmptyString
  | None => EmptyString
  end.

Fixpoint parse_digits (s : string) (acc : Z) : option Z :=
  match s with
  | EmptyString => Some acc
  | String c rest =>
    let d := rune_of c - 48 in
    if (0 <=? d) && (d <=? 9) then parse_digits rest (acc * 10 + d) else None
  end.

(** A decimal literal: one digit or more. *)
Definition parse_decimal (s : string) : option Z :=
  match s with
  | EmptyString => None
  | _ => parse_digits s 0
  end.

Definition in_range (r : option (Z * Z)) (v : Z) : bool :=
  match r with
  | None => true
  | Some (lo, hi) => (lo <=? v) && (v <=? hi)
  end.

(** Modelled from the spec: Parameter.ParseString for the unsigned integer
    DataTypes; [None] is a non-nil error. *)
Definition ParseString (p : Parameter_) (s : string) : option (list Z) :=
  match uint_width (dataTyp p) with
  | Some w =>
    match parse_decimal s with
    | Some v =>
      if (v <? 2 ^ (8 * Z.of_nat w)) && in_range (prange p) v then Some (pack_le w v) else None
    | None => None
    end
  | None => None
  end.

Definition test_tables : UnicodeHi := mkUnicodeHi (fun _ => false) (fun _ => false) (fun _ => false).

Definition test_param : Parameter_ := mkParameter (mkFieldBase "x" 0 []) Uint32Type None.

(** Token types that [parseDeclaration] sends to its [default] case. *)
Definition default_decl (k : tokenType) : bool :=
  match k with
  | tokenEOF | tokenError | tokenIdentifier | tokenLeftCurly => false
  | _ => true
  end.

(** The part of a File that only field and keyword declarations change. *)
Definition file_view (f : File) : list fieldBase * keywords := (Fields f, file_keywords f).

(** [m] leaves [file_view] of the shared File unchanged whenever it returns. *)
Definition preserves {A} (m : M A) : Prop :=
  forall s a s', m s = Done (a, s') -> file_view (pdcf s') = file_view (pdcf s).

(** The scanner's invariant: the input is [s] and [start <= pos <= len(s)]. *)
Definition lex_wf (s : string) (l : lexer) : Prop :=
  input l = s /\ (start l <= pos l <= String.length s)%nat.

(** What a state function may assume of the lexer it is entered with. *)
Definition entry (uni : UnicodeHi) (st : stateFn) (l : lexer) : Prop :=
  match st with
  | LexIdentifier => isAlphaNumeric uni (fst (lexer_next l)) = true
  | LexNumber => fst (lexer_next l) = rune_of "."%char \/ is_digit_rune (fst (lexer_next l)) = true
  | LexQuote | LexChar => (start l < pos l)%nat
  | _ => True
  end.

(** [ts] is a token sequence with offsets [b <= o1 < o2 < ... < ok < e]
    ([b <= e] when [ts] is empty). *)
Fixpoint chainto (b : nat) (ts : list token) (e : nat) : Prop :=
  match ts with
  | [] => (b <= e)%nat
  | t :: r => (b <= tpos t)%nat /\ chainto (S (tpos t)) r e
  end.

(** An error token, the EOF token, or the slice of [s] at the token's offset. *)
Definition is_slice (s : string) (t : token) : Prop :=
  typ t = tokenError \/ typ t = tokenEOF \/ val t = substring (tpos t) (String.length (val t)) s.

(** An error token of [ts] is its last token. *)
Definition err_last (ts : list token) : Prop :=
  forall pre t suf, ts = pre ++ t :: suf -> typ t = tokenError -> suf = [].

(** What one transition of the scanner guarantees, entered with [l]. *)
Definition step_ok (uni : UnicodeHi) (s : string) (l : lexer) (r : stepResult) : Prop :=
  let '(ts, l', nx) := r in
  Forall (is_slice s) ts /\
  match nx with
  | Some st =>
    lex_wf s l' /\ entry uni st l' /\ chainto (start l) ts (start l') /\
    Forall (fun t => typ t <> tokenError) ts
  | None => (exists e, chainto (start l) ts e) /\ err_last ts
  end.

(** ** Facts about the parser *)

(** ** More of the schema and token model *)

(** keywords.CompareKeywords, with [list] a [keywords] value: the lengths
    first, then every keyword of the receiver looked up in [list]. *)
Definition CompareKeywords (k list : keywords) : bool :=
  Nat.eqb (List.length k) (List.length list) && forallb (HasKeyword list) k.

(** [t, ok := f.ClassByName[name]]: the index of the entry when [ok]. *)
Definition ClassByName_lookup (f : File) (name : string) : option nat :=
  match ClassByName f with
  | None => None
  | Some m => option_map snd (find (fun e => String.eqb (fst e) name) m)
  end.

(** The index of every Type of [Classes] is its position, and every name of
    [ClassByName] leads to an entry of [Classes] with that name. *)
Definition classes_consistent (f : File) : Prop :=
  (forall i t, nth_error (Classes f) i = Some t -> tindex t = i) /\
  (forall n i, ClassByName_lookup f n = Some i ->
     exists t, nth_error (Classes f) i = Some t /\ tname t = n).

(** tokenType.String: the name, or [token%d] for a type without one. *)
Definition tokenType_String (k : tokenType) : string :=
  let s := tokenName k in
  if String.eqb s "" then "token" +++ itoa (tokenType_val k) else s.

(** Weights of the scanner states, for the measure [2 * (len - pos) + w]:
    lexNumber and lexIdentifier are entered before the rune they read,
    lexSpace after one that it may not follow with others. *)
Definition st_weight (st : stateFn) : nat :=
  match st with
  | LexSpace => 2
  | LexNumber | LexIdentifier => 0
  | _ => 1
  end.

Definition lex_measure (s : string) (st : stateFn) (l : lexer) : nat :=
  2 * (String.length s - pos l) + st_weight st.

(** A transition either enters a state of smaller measure than [m], or ends
    the scan with an EOF or error token last. *)
Definition step_dec (s : string) (m : nat) (r : stepResult) : Prop :=
  let '(ts, l', nx) := r in
  match nx with
  | Some st => (lex_measure s st l' < m)%nat
  | None => exists pre t, ts = pre ++ [t] /\ (typ t = tokenEOF \/ typ t = tokenError)
  end.

(** What an identifier token carries: not a word of [key], not a boolean. *)
Definition ident_ok (t : token) : Prop :=
  typ t = tokenIdentifier ->
  key (val t) = tokenError /\ val t <> "true"%string /\ val t <> "false"%string.

(** The parse-time invariant: the shared File is still [new(File)], and every
    token the parser can still read satisfies [ident_ok]. *)
Definition parse_inv (st : pstate) : Prop :=
  pdcf st = new_File /\ Forall ident_ok (ch_toks (plex st)) /\ ident_ok (peekedToken (plex st)).

(** [m] keeps [parse_inv] whenever it returns. *)
Definition keeps {A} (m : M A) : Prop :=
  forall st a st', parse_inv st -> m st = Done (a, st') -> parse_inv st'.

(** [m] keeps [parse_inv] and returns a token of [ident_ok]. *)
Definition keeps_tok (m : M token) : Prop :=
  forall st t st', parse_inv st -> m st = Done (t, st') -> parse_inv st' /\ ident_ok t.

(** The tokens after which the lexer goroutine stops. *)
Definition final_tok (t : token) : bool := is_typ tokenEOF t || is_typ tokenError t.

(** A token stream that ends in its only EOF or error token. *)
Definition ends_final (ts : list token) : Prop :=
  exists pre t, ts = pre ++ [t] /\ final_tok t = true /\ Forall (fun u => final_tok u = false) pre.

(** What one transition emits: no final token when it goes on, a stream
    ending in one when it stops. *)
Definition step_fin (r : stepResult) : Prop :=
  let '(ts, _, nx) := r in
  match nx with
  | Some _ => Forall (fun t => final_tok t = false) ts
  | None => ends_final ts
  end.

(** The tokens the parser can still read: the peeked one, then the channel. *)
Definition pending (c : chan_state) : list token :=
  if hasPeeked c then peekedToken c :: ch_toks c else ch_toks c.

(** The parser's view of a lexer stream that has not ended yet. *)
Definition stream_ok (ts : list token) : Prop := ends_final ts /\ Forall ident_ok ts.

Definition S_ok (st : pstate) : Prop := stream_ok (pending (plex st)).

(** [m], run from a state of [P], runs out of fuel or returns some [a] in a
    state of [Q a]: it never blocks on the channel and never panics. *)
Definition no_stuck {A} (P : pstate -> Prop) (Q : A -> pstate -> Prop) (m : M A) : Prop :=
  forall st, P st -> m st = NoFuel \/ exists a st', m st = Done (a, st') /\ Q a st'.

(** The paren and curly depths of a lexer. *)
Definition dep (l : lexer) : Z * Z := (parenDepth l, curlyDepth l).

(** The number of tokens of type [k] in [ts]. *)
Definition count_typ (k : tokenType) (ts : list token) : nat :=
  List.length (filter (is_typ k) ts).

(** Opening minus closing tokens. *)
Definition bal (o c : tokenType) (ts : list token) : Z :=
  Z.of_nat (count_typ o ts) - Z.of_nat (count_typ c ts).

(** How one transition moves the depths: by the bracket tokens it emits, and
    the paren depth stays non-negative; a transition that ends the stream
    with EOF does so at paren depth 0 and curly depth at most 0. *)
Definition depth_ok (l : lexer) (r : stepResult) : Prop :=
  let '(ts, l', nx) := r in
  match nx with
  | Some _ =>
    parenDepth l' = parenDepth l + bal tokenLeftParen tokenRightParen ts /\
    curlyDepth l' = curlyDepth l + bal tokenLeftCurly tokenRightCurly ts /\
    (0 <= parenDepth l -> 0 <= parenDepth l')
  | None =>
    0 <= parenDepth l -> forall pre t, ts = pre ++ [t] -> typ t = tokenEOF ->
    parenDepth l + bal tokenLeftParen tokenRightParen pre = 0 /\
    curlyDepth l + bal tokenLeftCurly tokenRightCurly pre <= 0
  end.

Section ParserFacts.

Variable uni : UnicodeHi.

Lemma lex_peekToken_stable : forall s t s',
  lex_peekToken s = Done (t, s') -> lex_peekToken s' = Done (t, s').
Proof.
  intros [[toks hp pk lp inp] d] t s'; unfold lex_peekToken; simpl.
  destruct hp.
  - intros H; inversion H; subst; reflexivity.
  - destruct toks as [|t0 r]; intros H; inversion H; subst; reflexivity.
Qed.

Lemma parseDeclaration_default : forall f p s t s',
  lex_peekToken s = Done (t, s') -> default_decl (typ t) = true ->
  parseDeclaration uni f p s = Done (true, s').
Proof.
  intros f p s t s' Hp Hd.
  unfold parseDeclaration, p_peek, bind at 1; rewrite Hp.
  destruct (typ t); try discriminate; reflexivity.
Qed.

Lemma parseDeclaration_error : forall f p s t s',
  lex_peekToken s = Done (t, s') -> typ t = tokenError ->
  parseDeclaration uni f p s = Done (false, s').
Proof.
  intros f p s t s' Hp Ht.
  unfold parseDeclaration, p_peek, bind at 1; rewrite Hp, Ht; reflexivity.
Qed.

Lemma parse_loop_default : forall n p s t s',
  lex_peekToken s = Done (t, s') -> default_decl (typ t) = true ->
  parse_loop uni n p s = NoFuel.
Proof.
  induction n as [|n IH]; intros p s t s' Hp Hd; [reflexivity|].
  cbn [parse_loop]; unfold bind at 1.
  rewrite (parseDeclaration_default n p s t s' Hp Hd).
  exact (IH p s' t s' (lex_peekToken_stable s t s' Hp) Hd).
Qed.

(** An input whose first token goes to the default case of
    [parseDeclaration] never finishes parsing. *)
Lemma parse_run_default : forall n r t rest,
  lex_tokens uni r = t :: rest -> default_decl (typ t) = true ->
  parse_run uni n r = NoFuel.
Proof.
  intros n r t rest Hl Hd.
  unfold parse_run, parse, bind at 1.
  rewrite (parse_loop_default n parser_init (Parse_init uni r) t
             (mkP (mkChan rest true t 0 r) new_File)); [reflexivity| |exact Hd].
  unfold lex_peekToken, Parse_init; simpl; rewrite Hl; reflexivity.
Qed.

(** The error list that parse prints is the one of its own receiver, which
    no call adds to. *)
Lemma parse_run_errors : forall n r f l, parse_run uni n r = Done (f, l) -> l = [].
Proof.
  intros n r f l; unfold parse_run, parse, bind at 1.
  destruct (parse_loop uni n parser_init (Parse_init uni r)) as [[u s]| | |];
    simpl; intros H; inversion H; reflexivity.
Qed.

End ParserFacts.

(** ** No parser action changes the File's fields or keywords *)

Create HintDb pres.

Section Preservation.

Variable uni : UnicodeHi.

Lemma preserves_ret : forall A (a : A), preserves (ret a).
Proof. intros A a s b s' H; inversion H; reflexivity. Qed.

Lemma preserves_get : preserves get.
Proof. intros s b s' H; inversion H; reflexivity. Qed.

Lemma preserves_nofuel : forall A, preserves (@nofuel A).
Proof. intros A s b s' H; discriminate. Qed.

Lemma preserves_panic : forall A e, preserves (fun _ => @Panic (A * pstate) e).
Proof. intros A e s b s' H; discriminate. Qed.

Lemma preserves_bind : forall A B (m : M A) (k : A -> M B),
  preserves m -> (forall a, preserves (k a)) -> preserves (bind m k).
Proof.
  intros A B m k Hm Hk s b s'; unfold bind.
  destruct (m s) as [[a s1]| | |] eqn:E; try discriminate.
  intros H; rewrite (Hk a s1 b s' H); exact (Hm s a s1 E).
Qed.

Lemma preserves_nextToken : preserves lex_nextToken.
Proof.
  intros [[toks hp pk lp inp] d] t s'; unfold lex_nextToken; simpl.
  destruct hp; [intros H; inversion H; reflexivity|].
  destruct toks; intros H; inversion H; reflexivity.
Qed.

Lemma preserves_peekToken : preserves lex_peekToken.
Proof.
  intros [[toks hp pk lp inp] d] t s'; unfold lex_peekToken; simpl.
  destruct hp; [intros H; inversion H; reflexivity|].
  destruct toks; intros H; inversion H; reflexivity.
Qed.

Lemma preserves_lineNumber : preserves lex_lineNumber.
Proof. intros s n s' H; inversion H; reflexivity. Qed.

Lemma preserves_AddStruct : forall name, preserves (File_AddStruct name).
Proof.
  intros name s t s'; unfold File_AddStruct, File_AddType; simpl.
  destruct (ClassByName (pdcf s)); intros H; inversion H; reflexivity.
Qed.

#[local] Hint Resolve preserves_ret preserves_get preserves_nofuel preserves_panic
  preserves_nextToken preserves_peekToken preserves_lineNumber preserves_AddStruct : pres.

Ltac pres :=
  repeat (cbv beta zeta;
    match goal with
    | |- preserves (bind _ _) => apply preserves_bind; [|intros ?]
    | |- preserves (match ?x with _ => _ end) => destruct x
    | |- preserves (if ?b then _ else _) => destruct b
    | |- preserves _ => solve [eauto with pres]
    end).

Lemma preserves_p_next : forall p, preserves (p_next p).
Proof. intros p; unfold p_next; pres. Qed.
#[local] Hint Resolve preserves_p_next : pres.

Lemma preserves_p_peek : forall p, preserves (p_peek p).
Proof. intros p; unfold p_peek; pres. Qed.
#[local] Hint Resolve preserves_p_peek : pres.

Lemma preserves_skip_loop : forall n stop p t first, preserves (skip_loop n stop p t first).
Proof. induction n; intros; cbn [skip_loop]; pres. Qed.
#[local] Hint Resolve preserves_skip_loop : pres.

Lemma preserves_expectEndline : forall n p l, preserves (expectEndline uni n p l).
Proof. intros; unfold expectEndline; pres. Qed.
#[local] Hint Resolve preserves_expectEndline : pres.

Lemma preserves_expectRightCurly : forall n p l, preserves (expectRightCurly uni n p l).
Proof. intros; unfold expectRightCurly; pres. Qed.
#[local] Hint Resolve preserves_expectRightCurly : pres.

Lemma preserves_parseField : forall n p o, preserves (parseField uni n p o).
Proof. intros; unfold parseField, parseAtomic, parseMolecular, parseParameter; pres. Qed.
#[local] Hint Resolve preserves_parseField : pres.

Lemma preserves_parseStructInner_loop : forall n p s t,
  preserves (parseStructInner_loop uni n p s t).
Proof. induction n; intros; cbn [parseStructInner_loop]; pres. Qed.
#[local] Hint Resolve preserves_parseStructInner_loop : pres.

Lemma preserves_parseStructInner : forall n p s, preserves (parseStructInner uni n p s).
Proof. intros; unfold parseStructInner; pres. Qed.
#[local] Hint Resolve preserves_parseStructInner : pres.

Lemma preserves_parseDeclaration : forall n p, preserves (parseDeclaration uni n p).
Proof. intros; unfold parseDeclaration, parseKeyword, parseStruct, parseClass; pres. Qed.
#[local] Hint Resolve preserves_parseDeclaration : pres.

Lemma preserves_parse_loop : forall n p, preserves (parse_loop uni n p).
Proof. induction n; intros; cbn [parse_loop]; pres. Qed.

(** Whenever Parse returns, the File's fields and keywords are those of
    [new(File)]: both empty. *)
Lemma parse_run_view : forall n r f l,
  parse_run uni n r = Done (f, l) -> Fields f = [] /\ file_keywords f = [].
Proof.
  intros n r f l; unfold parse_run, parse, bind at 1.
  destruct (parse_loop uni n parser_init (Parse_init uni r)) as [[u s]| | |] eqn:E;
    simpl; intros H; inversion H; subst.
  apply preserves_parse_loop in E; unfold file_view in E; simpl in E.
  injection E; auto.
Qed.

End Preservation.

Lemma parse_run_first_token : forall uni n r t,
  hd_error (lex_tokens uni r) = Some t -> default_decl (typ t) = true ->
  parse_run uni n r = NoFuel.
Proof.
  intros uni n r t Hh Hd.
  destruct (lex_tokens uni r) as [|t0 rest] eqn:E; [discriminate|].
  injection Hh as <-; exact (parse_run_default uni n r t0 rest E Hd).
Qed.

(** ** The claims *)

(** C5: the lexer on [0b110] emits one number token with text "0b110" and
    then EOF; on [3k] one error token, "bad number syntax: " followed by
    "3k" quoted; on [(3] a left paren, the number 3, and the error
    "unclosed left paren".  This holds for every Unicode table. *)
Theorem lexer_literals : forall uni,
  lex_tokens uni "0b110" = [mkToken tokenNumber 0 "0b110"; mkToken tokenEOF 5 ""] /\
  lex_tokens uni "3k" =
    [mkToken tokenError 0 ("bad number syntax: " +++ dquote +++ "3k" +++ dquote)] /\
  lex_tokens uni "(3" =
    [mkToken tokenLeftParen 0 "("; mkToken tokenNumber 1 "3";
     mkToken tokenError 2 "unclosed left paren"].
Proof. intros uni; split; [|split]; vm_compute; reflexivity. Qed.

(** C1: Parse does not report errors: on [3k] the lexer's error token is
    read and parse returns [new(File)] with an empty error list (the error
    was appended to a copy of the parser), and on [keyword foo;] Parse never
    returns (parseDeclaration neither dispatches nor consumes the keyword
    token). *)
Theorem Parse_diagnostics_lost : forall uni,
  lex_tokens uni "3k" =
    [mkToken tokenError 0 ("bad number syntax: " +++ dquote +++ "3k" +++ dquote)] /\
  parse_run uni 1 "3k" = Done (new_File, []) /\
  Parse uni 1 "3k" = Done (new_File, None) /\
  (forall n, parse_run uni n "keyword foo;" = NoFuel).
Proof.
  intros uni; split; [|split; [|split]]; [vm_compute; reflexivity..|].
  intros n; apply (parse_run_first_token uni n _ (mkToken tokenKeyword 0 "keyword"));
    vm_compute; reflexivity.
Qed.

(** C9: the uniqueness check of parseStruct is never reached: a [struct]
    token goes to the default case of parseDeclaration, and on two
    declarations of S Parse never returns. *)
Theorem duplicate_struct_diverges : forall uni n,
  parse_run uni n "struct S { }; struct S { };" = NoFuel.
Proof.
  intros uni n; apply (parse_run_first_token uni n _ (mkToken tokenStruct 0 "struct"));
    vm_compute; reflexivity.
Qed.

(** ** Packed uint32 data *)

Lemma lor_low_byte : forall v, Z.lor (Z.land v 255) (Z.shiftl (Z.shiftr v 8) 8) = v.
Proof.
  intros v; apply Z.bits_inj'; intros n Hn.
  rewrite Z.lor_spec, Z.land_spec.
  change 255 with (Z.ones 8); rewrite Z.testbit_ones by lia.
  rewrite (proj2 (Z.leb_le 0 n) Hn).
  destruct (Z.ltb_spec n 8).
  - rewrite Z.shiftl_spec_low by lia; rewrite Bool.andb_true_r, Bool.orb_false_r; reflexivity.
  - rewrite Z.shiftl_spec_high by lia; rewrite Z.shiftr_spec by lia.
    rewrite !Bool.andb_false_r, Bool.orb_false_l; f_equal; lia.
Qed.

Lemma unpack_pack_le : forall w v,
  0 <= v < 2 ^ (8 * Z.of_nat w) -> unpack_le (pack_le w v) = v.
Proof.
  induction w as [|w IH]; intros v Hv.
  - simpl in Hv; simpl; lia.
  - cbn [pack_le unpack_le].
    rewrite IH; [apply lor_low_byte|].
    rewrite Z.shiftr_div_pow2 by lia.
    rewrite Nat2Z.inj_succ, Z.mul_succ_r, Z.pow_add_r in Hv by lia.
    split; [apply Z.div_pos; lia|].
    apply Z.div_lt_upper_bound; [lia|]; rewrite Z.mul_comm; exact (proj2 Hv).
Qed.

Lemma pack_le_length : forall w v, List.length (pack_le w v) = w.
Proof. induction w; intros; simpl; auto. Qed.

Definition digit_ok (d : Z) : Prop := 0 <= d <= 9.

Lemma digits_rev_spec : forall f n, 0 <= n < 10 ^ Z.of_nat (S f) ->
  fold_right (fun d a => a * 10 + d) 0 (digits_rev (S f) n) = n /\
  Forall digit_ok (digits_rev (S f) n).
Proof.
  induction f as [|f IH]; intros n Hn.
  - simpl in Hn; simpl; destruct (Z.ltb_spec n 10); [|lia].
    split; [simpl; lia|]; constructor; [unfold digit_ok; lia | constructor].
  - cbn [digits_rev]; destruct (Z.ltb_spec n 10).
    + split; [simpl; lia|]; constructor; [unfold digit_ok; lia | constructor].
    + assert (Hq : 0 <= n / 10 < 10 ^ Z.of_nat (S f)).
      { rewrite Nat2Z.inj_succ, Z.pow_succ_r in Hn by lia.
        split; [apply Z.div_pos; lia|].
        apply Z.div_lt_upper_bound; lia. }
      destruct (IH (n / 10) Hq) as [Hv Hd].
      split.
      * transitivity (fold_right (fun d a => a * 10 + d) 0 (digits_rev (S f) (n / 10)) * 10
                      + n mod 10); [reflexivity|].
        rewrite Hv; pose proof (Z.div_mod n 10); lia.
      * constructor; [unfold digit_ok; pose proof (Z.mod_pos_bound n 10); lia | exact Hd].
Qed.

Lemma parse_digits_string_of_digits : forall ds acc, Forall digit_ok ds ->
  parse_digits (string_of_digits ds) acc = Some (fold_left (fun a d => a * 10 + d) ds acc).
Proof.
  induction ds as [|d ds IH]; intros acc Hds; [reflexivity|].
  inversion Hds as [|? ? Hd Hrest]; subst; unfold digit_ok in Hd.
  cbn [string_of_digits fold_right]; unfold byte_str; cbn [String.append parse_digits].
  unfold rune_of; rewrite nat_ascii_embedding by lia.
  rewrite Z2Nat.id by lia.
  replace (48 + d - 48) with d by lia.
  destruct (Z.leb_spec 0 d); [|lia]; destruct (Z.leb_spec d 9); [|lia]; simpl.
  apply IH; exact Hrest.
Qed.

Lemma parse_decimal_itoa : forall v, 0 <= v < 10 ^ 20 -> parse_decimal (itoa v) = Some v.
Proof.
  intros v Hv; unfold itoa; destruct (Z.ltb_spec v 0); [lia|].
  destruct (digits_rev_spec 19 v Hv) as [Hval Hok].
  assert (Hs : parse_digits (string_of_digits (rev (digits_rev 20 v))) 0 = Some v).
  { rewrite parse_digits_string_of_digits by (apply Forall_rev; exact Hok).
    assert (Hr : forall (g : Z -> Z -> Z) l i, fold_left g (rev l) i = fold_right (fun x y => g y x) i l).
    { intros g l i; rewrite <- (rev_involutive l) at 2; rewrite fold_left_rev_right; reflexivity. }
    rewrite Hr, Hval; reflexivity. }
  assert (Hne : rev (digits_rev 20 v) <> []).
  { intros H0; apply (f_equal (@rev Z)) in H0; rewrite rev_involutive in H0.
    cbn [digits_rev rev] in H0; destruct (v <? 10); discriminate. }
  unfold parse_decimal; revert Hs Hne.
  destruct (rev (digits_rev 20 v)) as [|d ds]; [intros _ Hn; contradiction Hn; reflexivity|].
  intros Hs _; exact Hs.
Qed.

(** C7: for a Parameter of DataType uint32 with no Range and every v in
    [0, 2^32-1], parsing the text that FormatData gives for the 4-byte
    little-endian packing of v (field names not shown) returns that
    packing. *)
Theorem uint32_format_parse_roundtrip : forall p v,
  dataTyp p = Uint32Type -> prange p = None -> 0 <= v <= 2 ^ 32 - 1 ->
  ParseString p (FormatData p (pack_uint32 v) false) = Some (pack_uint32 v).
Proof.
  intros p v Ht Hr Hv.
  unfold FormatData, ParseString, pack_uint32; rewrite Ht, Hr; cbn [uint_width].
  rewrite pack_le_length, Nat.eqb_refl; cbn [String.append].
  rewrite unpack_pack_le by (simpl; lia).
  rewrite parse_decimal_itoa by lia.
  destruct (Z.ltb_spec v (2 ^ (8 * Z.of_nat 4))); [reflexivity | simpl in *; lia].
Qed.

Lemma uint32_format_parse_roundtrip_witness :
  dataTyp test_param = Uint32Type /\ prange test_param = None /\
  0 <= 4000000000 <= 2 ^ 32 - 1 /\
  ParseString test_param (FormatData test_param (pack_uint32 4000000000) false)
  = Some (pack_uint32 4000000000).
Proof.
  split; [reflexivity|]; split; [reflexivity|]; split; [lia|].
  apply uint32_format_parse_roundtrip; [reflexivity | reflexivity | lia].
Defined.

(** ** Facts about the lexer *)

Lemma get_lt : forall s j c, String.get j s = Some c -> (j < String.length s)%nat.
Proof.
  induction s as [|c0 s IH]; intros [|j] c H; simpl in *; try discriminate; [lia|].
  apply IH in H; lia.
Qed.

Lemma byte_at_lt : forall s j b, byte_at s j = Some b -> (j < String.length s)%nat.
Proof.
  intros s j b; unfold byte_at; destruct (String.get j s) eqn:E; [|discriminate].
  intros _; exact (get_lt s j a E).
Qed.

Lemma byte_at_some : forall s j, (j < String.length s)%nat -> exists b, byte_at s j = Some b.
Proof.
  induction s as [|c s IH]; intros [|j] H; simpl in *; try lia.
  - exists (Z.of_nat (nat_of_ascii c)); reflexivity.
  - destruct (IH j ltac:(lia)) as [b Hb]; exists b; unfold byte_at in *; simpl; exact Hb.
Qed.

(** Decoding at an offset inside the string reads at least one byte and
    stays inside the string. *)
Lemma decode_width : forall s i, (i < String.length s)%nat ->
  (1 <= snd (utf8_DecodeRuneInString s i) /\
   i + snd (utf8_DecodeRuneInString s i) <= String.length s)%nat.
Proof.
  intros s i Hi; destruct (byte_at_some s i Hi) as [b0 Hb0].
  unfold utf8_DecodeRuneInString; rewrite Hb0; cbv beta zeta.
  repeat match goal with
         | |- context [if ?c then _ else _] => let Ec := fresh "Ec" in destruct c eqn:Ec
         end;
  repeat match goal with
         | H : (_ && _) = true |- _ => apply Bool.andb_true_iff in H; destruct H
         end;
  repeat match goal with
         | H : context [byte_at s ?j] |- _ =>
           let E := fresh "E" in
           destruct (byte_at s j) eqn:E; [apply byte_at_lt in E | simpl in H; discriminate H]
         end;
  simpl; lia.
Qed.

Lemma substring_length : forall str n m, (n + m <= String.length str)%nat ->
  String.length (substring n m str) = m.
Proof.
  induction str as [|c str IH]; intros [|n] [|m] H; simpl in *; try lia; try reflexivity.
  - f_equal; apply IH; lia.
  - apply IH; lia.
  - apply IH; lia.
Qed.

Lemma in_valid_eof : forall v, in_valid v eof = false.
Proof.
  intros v; unfold in_valid; induction (list_ascii_of_string v) as [|c l IH]; simpl; [reflexivity|].
  rewrite IH, Bool.orb_false_r; unfold rune_of, eof; apply Z.eqb_neq; lia.
Qed.

Section LexerFacts.

Variable uni : UnicodeHi.
Variable s : string.

(** [l'] is [l] moved forward: same start, same input, no smaller offset. *)
Definition adv (l l' : lexer) : Prop :=
  lex_wf s l' /\ start l' = start l /\ (pos l <= pos l')%nat.

Lemma adv_refl : forall l, lex_wf s l -> adv l l.
Proof. intros l H; unfold adv; auto. Qed.

Lemma adv_trans : forall l1 l2 l3, adv l1 l2 -> adv l2 l3 -> adv l1 l3.
Proof. intros l1 l2 l3 (H1 & H2 & H3) (H4 & H5 & H6); unfold adv; split; [auto|split; lia]. Qed.

Lemma next_spec : forall l r l', lex_wf s l -> lexer_next l = (r, l') ->
  adv l l' /\ (r <> eof -> pos l < pos l')%nat /\
  lex_wf s (lexer_backup l') /\ pos (lexer_backup l') = pos l /\ start (lexer_backup l') = start l.
Proof.
  intros l r l' [Hi Hp]; unfold lexer_next.
  destruct (Nat.leb_spec (String.length (input l)) (pos l)) as [Hle|Hlt].
  - intros H; inversion H; subst; clear H.
    unfold adv, lex_wf, lexer_backup; simpl.
    destruct (canBackup l); simpl; repeat split; auto; try lia; intros []; reflexivity.
  - destruct (utf8_DecodeRuneInString (input l) (pos l)) as [r0 w] eqn:Ed.
    pose proof (decode_width (input l) (pos l) Hlt) as Hw; rewrite Ed in Hw; simpl in Hw.
    intros H; injection H as <- <-.
    unfold adv, lex_wf, lexer_backup; simpl.
    rewrite <- Hi; repeat split; auto; lia.
Qed.

Lemma next_rune_eq : forall l1 l2, input l1 = input l2 -> pos l1 = pos l2 ->
  fst (lexer_next l1) = fst (lexer_next l2).
Proof.
  intros l1 l2 Hi Hp; unfold lexer_next; rewrite Hi, Hp.
  destruct (_ <=? _)%nat; [reflexivity|].
  destruct (utf8_DecodeRuneInString (input l2) (pos l2)); reflexivity.
Qed.

Lemma peek_spec : forall l r l', lex_wf s l -> lexer_peek l = (r, l') ->
  lex_wf s l' /\ pos l' = pos l /\ start l' = start l /\ r = fst (lexer_next l).
Proof.
  intros l r l' Hw; unfold lexer_peek.
  destruct (lexer_next l) as [r1 l1] eqn:E; intros H; injection H as <- <-.
  destruct (next_spec l r1 l1 Hw E) as (_ & _ & H1 & H2 & H3); auto.
Qed.

Lemma emit_spec : forall k l t l', lex_wf s l -> emit k l = (t, l') ->
  typ t = k /\ tpos t = start l /\ String.length (val t) = (pos l - start l)%nat /\
  val t = substring (tpos t) (String.length (val t)) s /\
  lex_wf s l' /\ start l' = pos l /\ pos l' = pos l.
Proof.
  intros k l t l' [Hi Hp]; unfold emit; intros H; injection H as <- <-; simpl.
  rewrite <- Hi in Hp |- *; rewrite substring_length by lia.
  unfold lex_wf, with_start; simpl; repeat split; auto; lia.
Qed.

Lemma accept_spec : forall v l b l', lex_wf s l -> accept v l = (b, l') ->
  adv l l' /\ (b = true -> pos l < pos l')%nat /\ (b = false -> pos l' = pos l).
Proof.
  intros v l b l' Hw; unfold accept.
  destruct (lexer_next l) as [r l1] eqn:E.
  destruct (next_spec l r l1 Hw E) as (Ha & Hprog & Hbw & Hbp & Hbs).
  destruct (in_valid v r) eqn:Ev; intros H; injection H as <- <-.
  - split; [exact Ha|]; split; [|discriminate].
    intros _; apply Hprog; intros ->; rewrite in_valid_eof in Ev; discriminate Ev.
  - split; [unfold adv; split; [exact Hbw | split; lia]|]; split; [discriminate|auto].
Qed.

Lemma acceptRun_loop_adv : forall n v l, lex_wf s l -> adv l (acceptRun_loop n v l).
Proof.
  induction n as [|n IH]; intros v l Hw; [apply adv_refl; exact Hw|].
  cbn [acceptRun_loop]; destruct (lexer_next l) as [r l1] eqn:E.
  destruct (next_spec l r l1 Hw E) as (Ha & _ & Hbw & Hbp & Hbs).
  destruct (in_valid v r).
  - apply (adv_trans _ l1); [exact Ha|]; apply IH; exact (proj1 Ha).
  - unfold adv; split; [exact Hbw | split; lia].
Qed.

(** acceptRun reads the rune at [pos] when it is valid, and stays put
    when it is not. *)
Lemma acceptRun_loop_first : forall n v l, lex_wf s l ->
  (in_valid v (fst (lexer_next l)) = true -> pos l < pos (acceptRun_loop (S n) v l))%nat /\
  (in_valid v (fst (lexer_next l)) = false -> pos (acceptRun_loop (S n) v l) = pos l).
Proof.
  intros n v l Hw; cbn [acceptRun_loop]; destruct (lexer_next l) as [r l1] eqn:E; simpl.
  destruct (next_spec l r l1 Hw E) as (Ha & Hprog & Hbw & Hbp & Hbs).
  destruct (in_valid v r) eqn:Ev; split; intros H; try discriminate.
  - assert (r <> eof) by (intros ->; rewrite in_valid_eof in Ev; discriminate Ev).
    pose proof (acceptRun_loop_adv n v l1 (proj1 Ha)) as (_ & _ & H2).
    specialize (Hprog H0); lia.
  - exact Hbp.
Qed.

Lemma lexSpace_loop_adv : forall n l, lex_wf s l -> adv l (lexSpace_loop n l).
Proof.
  induction n as [|n IH]; intros l Hw; [apply adv_refl; exact Hw|].
  cbn [lexSpace_loop]; destruct (lexer_peek l) as [r1 l1] eqn:E1.
  destruct (peek_spec l r1 l1 Hw E1) as (Hw1 & Hp1 & Hs1 & _).
  assert (A1 : adv l l1) by (unfold adv; split; [exact Hw1 | split; lia]).
  destruct (isSpace r1).
  - destruct (lexer_next l1) as [x l2] eqn:E2.
    destruct (next_spec l1 x l2 Hw1 E2) as (A2 & _).
    exact (adv_trans _ _ _ A1 (adv_trans _ _ _ A2 (IH l2 (proj1 A2)))).
  - destruct (lexer_peek l1) as [r2 l2] eqn:E2.
    destruct (peek_spec l1 r2 l2 Hw1 E2) as (Hw2 & Hp2 & Hs2 & _).
    assert (A2 : adv l1 l2) by (unfold adv; split; [exact Hw2 | split; lia]).
    destruct (isEndOfLine r2); [|exact (adv_trans _ _ _ A1 A2)].
    destruct (lexer_next l2) as [x l3] eqn:E3.
    destruct (next_spec l2 x l3 Hw2 E3) as (A3 & _).
    exact (adv_trans _ _ _ A1 (adv_trans _ _ _ A2 (adv_trans _ _ _ A3 (IH l3 (proj1 A3))))).
Qed.

Lemma lexIdentifier_loop_adv : forall n l r l', lex_wf s l ->
  lexIdentifier_loop uni n l = (r, l') -> adv l l'.
Proof.
  induction n as [|n IH]; intros l r l' Hw; cbn [lexIdentifier_loop].
  - intros H; injection H as <- <-; apply adv_refl; exact Hw.
  - destruct (lexer_next l) as [x l1] eqn:E.
    destruct (next_spec l x l1 Hw E) as (A1 & _ & Hbw & Hbp & Hbs).
    destruct (isAlphaNumeric uni x).
    + intros H; exact (adv_trans _ _ _ A1 (IH l1 r l' (proj1 A1) H)).
    + intros H; injection H as <- <-; unfold adv; split; [exact Hbw | split; lia].
Qed.

(** The identifier loop reads the alphanumeric rune it starts on. *)
Lemma lexIdentifier_loop_first : forall n l r l', lex_wf s l ->
  isAlphaNumeric uni (fst (lexer_next l)) = true ->
  lexIdentifier_loop uni (S n) l = (r, l') -> (pos l < pos l')%nat.
Proof.
  intros n l r l' Hw Ha; cbn [lexIdentifier_loop].
  destruct (lexer_next l) as [x l1] eqn:E; simpl in Ha; rewrite Ha.
  destruct (next_spec l x l1 Hw E) as (A1 & Hprog & _).
  assert (Hx : x <> eof).
  { intros ->; unfold isAlphaNumeric, IsLetter, IsDigit, eof in Ha; simpl in Ha; discriminate Ha. }
  intros H; destruct (lexIdentifier_loop_adv n l1 r l' (proj1 A1) H) as (_ & _ & Hp).
  specialize (Hprog Hx); lia.
Qed.

Lemma lexQuoted_loop_adv : forall n c l b l', lex_wf s l ->
  lexQuoted_loop n c l = (b, l') -> adv l l'.
Proof.
  induction n as [|n IH]; intros c l b l' Hw; cbn [lexQuoted_loop].
  - intros H; injection H as <- <-; apply adv_refl; exact Hw.
  - destruct (lexer_next l) as [x l1] eqn:E.
    destruct (next_spec l x l1 Hw E) as (A1 & _).
    destruct (x =? 92).
    + destruct (lexer_next l1) as [x2 l2] eqn:E2.
      destruct (next_spec l1 x2 l2 (proj1 A1) E2) as (A2 & _).
      destruct (negb (x2 =? eof) && negb (x2 =? 10)).
      * intros H; exact (adv_trans _ _ _ A1 (adv_trans _ _ _ A2 (IH c l2 b l' (proj1 A2) H))).
      * intros H; injection H as <- <-; exact (adv_trans _ _ _ A1 A2).
    + destruct ((x =? eof) || (x =? 10)); [intros H; injection H as <- <-; exact A1|].
      destruct (x =? c); [intros H; injection H as <- <-; exact A1|].
      intros H; exact (adv_trans _ _ _ A1 (IH c l1 b l' (proj1 A1) H)).
Qed.

Lemma atTerminator_spec : forall l b l', lex_wf s l -> atTerminator l = (b, l') ->
  lex_wf s l' /\ pos l' = pos l /\ start l' = start l.
Proof.
  intros l b l' Hw; unfold atTerminator.
  destruct (lexer_peek l) as [r l1] eqn:E; intros H; injection H as _ <-.
  destruct (peek_spec l r l1 Hw E) as (H1 & H2 & H3 & _); auto.
Qed.

Lemma find_from_spec : forall n p i j, find_from n p i = Some j -> p j = true /\ (i <= j)%nat.
Proof.
  induction n as [|n IH]; intros p i j; simpl; [discriminate|].
  destruct (p i) eqn:E; [intros H; injection H as <-; auto|].
  intros H; destruct (IH p (S i) j H); split; [auto | lia].
Qed.

Lemma index_endline_spec : forall str from i, index_endline str from = Some i ->
  (from + i < String.length str)%nat.
Proof.
  intros str from i; unfold index_endline.
  destruct (find_from _ _ from) as [j|] eqn:E; [|discriminate].
  intros H; injection H as <-.
  destruct (find_from_spec _ _ _ _ E) as [Hp Hle].
  destruct (byte_at str j) eqn:Eb; [apply byte_at_lt in Eb; lia | discriminate].
Qed.

Lemma index_block_end_spec : forall str from i, index_block_end str from = Some i ->
  (from + i + 2 <= String.length str)%nat.
Proof.
  intros str from i; unfold index_block_end.
  destruct (find_from _ _ from) as [j|] eqn:E; [|discriminate].
  intros H; injection H as <-.
  destruct (find_from_spec _ _ _ _ E) as [Hp Hle].
  destruct (byte_at str j) eqn:Eb; [|discriminate].
  destruct (byte_at str (S j)) eqn:Eb2; [apply byte_at_lt in Eb2; lia | discriminate].
Qed.

Lemma chainto_mono : forall ts b b' e, (b' <= b)%nat -> chainto b ts e -> chainto b' ts e.
Proof. intros [|t ts] b b' e Hb; simpl; [lia | intros [H1 H2]; split; [lia | exact H2]]. Qed.

Lemma chainto_app : forall ts1 ts2 b m e,
  chainto b ts1 m -> chainto m ts2 e -> chainto b (ts1 ++ ts2) e.
Proof.
  induction ts1 as [|t ts1 IH]; intros ts2 b m e H1 H2; simpl in *.
  - exact (chainto_mono ts2 m b e H1 H2).
  - split; [exact (proj1 H1) | exact (IH ts2 _ m e (proj2 H1) H2)].
Qed.

Lemma err_last_single : forall t, err_last [t].
Proof.
  intros t [|p pre] t' suf H _; simpl in H.
  - injection H as _ <-; reflexivity.
  - injection H as _ H; destruct pre; discriminate H.
Qed.

Lemma err_last_app : forall ts rest, Forall (fun t => typ t <> tokenError) ts ->
  err_last rest -> err_last (ts ++ rest).
Proof.
  induction ts as [|x ts IH]; intros rest Hts Hr; [exact Hr|].
  inversion Hts as [|? ? Hx Hts']; subst.
  intros [|p pre] t suf H Ht; simpl in H.
  - injection H as <- _; contradiction.
  - injection H as _ H; exact (IH rest Hts' Hr pre t suf H Ht).
Qed.

Lemma ok_errorf : forall l0 l msg, (start l0 <= start l)%nat -> step_ok uni s l0 (errorf l msg).
Proof.
  intros l0 l msg Hs; unfold step_ok, errorf; split.
  - constructor; [left; reflexivity | constructor].
  - split; [exists (S (start l)); simpl; lia | apply err_last_single].
Qed.

Lemma ok_silent : forall l0 l st, lex_wf s l -> entry uni st l -> (start l0 <= start l)%nat ->
  step_ok uni s l0 ([], l, Some st).
Proof. intros l0 l st Hw He Hs; unfold step_ok; simpl; auto. Qed.

Lemma ok_emit : forall l0 l k st t l' l'', lex_wf s l -> (start l0 <= start l < pos l)%nat ->
  k <> tokenError -> emit k l = (t, l') ->
  lex_wf s l'' -> pos l'' = pos l' -> start l'' = start l' -> entry uni st l'' ->
  step_ok uni s l0 ([t], l'', Some st).
Proof.
  intros l0 l k st t l' l'' Hw Hs Hk Em Hw'' Hp'' Hs'' He''.
  destruct (emit_spec k l t l' Hw Em) as (Ht & Htp & Hlen & Hsl & Hw' & Hst' & Hp').
  unfold step_ok; split; [constructor; [right; right; exact Hsl | constructor]|].
  split; [exact Hw''|]; split; [exact He''|]; split.
  - simpl; lia.
  - constructor; [rewrite Ht; exact Hk | constructor].
Qed.

Lemma ok_emit_any : forall l0 l k, lex_wf s l -> (start l0 <= start l < pos l)%nat ->
  k <> tokenError -> step_ok uni s l0 (emit_any k l).
Proof.
  intros l0 l k Hw Hs Hk; unfold emit_any.
  destruct (emit k l) as [t l'] eqn:Em.
  destruct (emit_spec k l t l' Hw Em) as (_ & _ & _ & _ & Hw' & _).
  exact (ok_emit l0 l k LexAny t l' l' Hw Hs Hk Em Hw' eq_refl eq_refl I).
Qed.

Lemma wf_ignore : forall l l', lex_wf s l -> adv l l' -> lex_wf s (ignore l').
Proof.
  intros l l' _ (( Hi & Hp) & _ & _); unfold lex_wf, ignore, with_start; simpl; split; [exact Hi | lia].
Qed.

Lemma step_lexComment : forall l, lex_wf s l -> step_ok uni s l (lexComment l).
Proof.
  intros l Hw; pose proof Hw as [Hi Hp]; unfold lexComment.
  destruct (index_endline (input l) (pos l)) as [i|] eqn:E; [|apply ok_errorf; lia].
  apply index_endline_spec in E; rewrite Hi in E.
  apply ok_silent; [| exact I | unfold ignore, with_start, with_pos; simpl; lia].
  unfold lex_wf, ignore, with_start, with_pos; simpl; split; [exact Hi | lia].
Qed.

Lemma step_lexBlockComment : forall l, lex_wf s l -> step_ok uni s l (lexBlockComment l).
Proof.
  intros l Hw; pose proof Hw as [Hi Hp]; unfold lexBlockComment.
  destruct (index_block_end (input l) (pos l)) as [i|] eqn:E; [|apply ok_errorf; lia].
  apply index_block_end_spec in E; rewrite Hi in E.
  apply ok_silent; [| exact I | unfold ignore, with_start, with_pos; simpl; lia].
  unfold lex_wf, ignore, with_start, with_pos; simpl; split; [exact Hi | lia].
Qed.

Lemma step_lexSpace : forall l, lex_wf s l -> step_ok uni s l (lexSpace l).
Proof.
  intros l Hw; unfold lexSpace.
  pose proof (lexSpace_loop_adv (S (String.length (input l))) l Hw) as A.
  apply ok_silent; [exact (wf_ignore _ _ Hw A) | exact I |].
  destruct A as ((_ & Hp) & Hs & Hp2); pose proof (proj2 Hw); unfold ignore, with_start; cbn [start]; lia.
Qed.

Lemma step_lexQuoted : forall l c k msg, lex_wf s l -> (start l < pos l)%nat -> k <> tokenError ->
  step_ok uni s l
    (let '(ok, l) := lexQuoted_loop (S (String.length (input l))) c l in
     if ok then emit_any k l else errorf l msg).
Proof.
  intros l c k msg Hw Hsp Hk.
  destruct (lexQuoted_loop _ c l) as [ok l2] eqn:E.
  destruct (lexQuoted_loop_adv _ c l ok l2 Hw E) as (Hw2 & Hs2 & Hp2).
  destruct ok; [apply ok_emit_any; [exact Hw2 | lia | exact Hk] | apply ok_errorf; lia].
Qed.

Lemma step_lexIdentifier : forall l, lex_wf s l -> entry uni LexIdentifier l ->
  step_ok uni s l (lexIdentifier uni l).
Proof.
  intros l Hw He; simpl in He; unfold lexIdentifier.
  destruct (lexIdentifier_loop uni (S (String.length (input l))) l) as [r l1] eqn:E1.
  pose proof (lexIdentifier_loop_first _ l r l1 Hw He E1) as Hprog.
  destruct (lexIdentifier_loop_adv _ l r l1 Hw E1) as (Hw1 & Hs1 & Hp1).
  destruct (atTerminator l1) as [term l2] eqn:E2.
  destruct (atTerminator_spec l1 term l2 Hw1 E2) as (Hw2 & Hp2 & Hs2).
  assert (Hr : (start l <= start l2 < pos l2)%nat) by (pose proof (proj2 Hw) as Hx; lia).
  destruct (negb term); [apply ok_errorf; lia|].
  destruct (tokenType_val tokenKeyDelim <? tokenType_val (key _)) eqn:Ek.
  - apply ok_emit_any; [exact Hw2 | exact Hr |].
    intros Hkey; rewrite Hkey in Ek; discriminate Ek.
  - destruct (_ || _); (apply ok_emit_any; [exact Hw2 | exact Hr | discriminate]).
Qed.

Lemma accept_true : forall v l, in_valid v (fst (lexer_next l)) = true -> fst (accept v l) = true.
Proof.
  intros v l; unfold accept; destruct (lexer_next l) as [r l1]; simpl.
  intros H; rewrite H; reflexivity.
Qed.

Lemma digit_in_valid : forall r, is_digit_rune r = true -> in_valid decimalDigits r = true.
Proof.
  intros r H; unfold is_digit_rune in H; apply Bool.andb_true_iff in H.
  destruct H as [H1 H2]; apply Z.leb_le in H1; apply Z.leb_le in H2.
  assert (r = 48 \/ r = 49 \/ r = 50 \/ r = 51 \/ r = 52 \/ r = 53 \/ r = 54 \/ r = 55
          \/ r = 56 \/ r = 57) as Hr by lia.
  repeat destruct Hr as [-> | Hr]; [reflexivity..|]; subst; reflexivity.
Qed.

(** The end of lexNumber: what follows the run of digits. *)
Lemma number_peek : forall l0 lf, lex_wf s l0 -> adv l0 lf -> (pos l0 < pos lf)%nat ->
  step_ok uni s l0
    (let '(r, l) := lexer_peek lf in
     if isAlphaNumeric uni r then
       let '(_, l) := lexer_next l in
       errorf l ("bad number syntax: " +++ Quote uni (substring (start l) (pos l - start l) (input l)))
     else emit_any tokenNumber l).
Proof.
  intros l0 lf Hw0 Af Hpf.
  destruct (lexer_peek lf) as [r lp] eqn:Ep.
  destruct Af as (Hwf & Hsf & _).
  destruct (peek_spec lf r lp Hwf Ep) as (Hwp & Hpp & Hsp & _).
  destruct (isAlphaNumeric uni r).
  - destruct (lexer_next lp) as [x ln] eqn:En.
    destruct (next_spec lp x ln Hwp En) as ((_ & Hsn & _) & _).
    apply ok_errorf; lia.
  - apply ok_emit_any; [exact Hwp | pose proof (proj2 Hw0); lia | discriminate].
Qed.

Lemma number_tail : forall l0 encode digits l3, lex_wf s l0 -> adv l0 l3 ->
  ((pos l0 < pos l3)%nat \/ (digits = decimalDigits /\ fst (lexer_next l3) = rune_of "."%char)) ->
  step_ok uni s l0
   (let '(adot, l) := accept "." l3 in
    let frac : stepResult + lexer :=
      if adot then
        if negb (String.eqb digits decimalDigits) then
          inl (errorf l ("non-decimal number (starting with '" +++ encode
                         +++ "') cannot contain a decimal point."))
        else inr (acceptRun digits l)
      else inr l in
    match frac with
    | inl e => e
    | inr l =>
      let '(r, l) := lexer_peek l in
      if isAlphaNumeric uni r then
        let '(_, l) := lexer_next l in
        errorf l ("bad number syntax: " +++ Quote uni (substring (start l) (pos l - start l) (input l)))
      else emit_any tokenNumber l
    end).
Proof.
  intros l0 encode digits l3 Hw0 A3 Hpr.
  destruct (accept "." l3) as [adot l4] eqn:E4.
  destruct (accept_spec "." l3 adot l4 (proj1 A3) E4) as (A4 & Hb1 & Hb0).
  pose proof (adv_trans _ _ _ A3 A4) as A04.
  assert (Hpos : (pos l0 < pos l4)%nat).
  { destruct adot.
    - specialize (Hb1 eq_refl); destruct A3 as (_ & _ & ?); lia.
    - destruct Hpr as [H | [Hd Hr]]; [rewrite (Hb0 eq_refl); exact H|].
      pose proof (accept_true "." l3) as Ht; rewrite E4, Hr in Ht; discriminate (Ht eq_refl). }
  destruct adot; cbv zeta.
  - destruct (negb (String.eqb digits decimalDigits)).
    + apply ok_errorf; destruct A04 as (_ & -> & _); lia.
    + apply number_peek; [exact Hw0| |].
      * exact (adv_trans _ _ _ A04 (acceptRun_loop_adv _ _ _ (proj1 A04))).
      * pose proof (acceptRun_loop_adv (S (String.length (input l4))) digits l4 (proj1 A04))
          as (_ & _ & ?).
        unfold acceptRun; lia.
  - apply number_peek; [exact Hw0 | exact A04 | exact Hpos].
Qed.

Lemma step_lexNumber : forall l, lex_wf s l -> entry uni LexNumber l ->
  step_ok uni s l (lexNumber uni l).
Proof.
  intros l Hw He; simpl in He; unfold lexNumber.
  destruct (accept "0" l) as [a0 l1] eqn:E1.
  destruct (accept_spec "0" l a0 l1 Hw E1) as (A1 & Hb1 & Hb0).
  destruct a0.
  - specialize (Hb1 eq_refl).
    destruct (accept "xX" l1) as [ax l2] eqn:E2.
    destruct (accept_spec "xX" l1 ax l2 (proj1 A1) E2) as (A2 & _).
    destruct ax.
    + pose proof (acceptRun_loop_adv (S (String.length (input l2))) hexadecimalDigits l2
                    (proj1 A2)) as A3.
      refine (number_tail l hexadecimalEncode hexadecimalDigits _ Hw _ _);
        [exact (adv_trans _ _ _ A1 (adv_trans _ _ _ A2 A3))|].
      left; destruct A2 as (_ & _ & ?); destruct A3 as (_ & _ & ?); unfold acceptRun; lia.
    + destruct (accept "bB" l2) as [ab l3] eqn:E3.
      destruct (accept_spec "bB" l2 ab l3 (proj1 A2) E3) as (A3 & _).
      destruct ab.
      * pose proof (acceptRun_loop_adv (S (String.length (input l3))) binaryDigits l3
                      (proj1 A3)) as A4.
        refine (number_tail l binaryEncode binaryDigits _ Hw _ _);
          [exact (adv_trans _ _ _ A1 (adv_trans _ _ _ A2 (adv_trans _ _ _ A3 A4)))|].
        left; destruct A2 as (_ & _ & ?); destruct A3 as (_ & _ & ?); destruct A4 as (_ & _ & ?);
          unfold acceptRun; lia.
      * pose proof (acceptRun_loop_adv (S (String.length (input l3))) octalDigits l3
                      (proj1 A3)) as A4.
        refine (number_tail l octalEncode octalDigits _ Hw _ _);
          [exact (adv_trans _ _ _ A1 (adv_trans _ _ _ A2 (adv_trans _ _ _ A3 A4)))|].
        left; destruct A2 as (_ & _ & ?); destruct A3 as (_ & _ & ?); destruct A4 as (_ & _ & ?);
          unfold acceptRun; lia.
  - specialize (Hb0 eq_refl).
    assert (Hr : fst (lexer_next l1) = fst (lexer_next l)).
    { apply next_rune_eq; [destruct A1 as ((-> & _) & _); exact (eq_sym (proj1 Hw)) | exact Hb0]. }
    pose proof (acceptRun_loop_adv (S (String.length (input l1))) decimalDigits l1
                  (proj1 A1)) as A3.
    pose proof (acceptRun_loop_first (String.length (input l1)) decimalDigits l1 (proj1 A1))
      as [Hd Hnd].
    refine (number_tail l decimalEncode decimalDigits _ Hw (adv_trans _ _ _ A1 A3) _).
    unfold acceptRun; rewrite Hr in Hd, Hnd.
    destruct He as [Hdot | Hdig].
    + right; split; [reflexivity|].
      rewrite Hdot in Hnd; specialize (Hnd eq_refl).
      rewrite (next_rune_eq _ l1); [exact (eq_trans Hr Hdot) | |exact Hnd].
      destruct A3 as ((-> & _) & _); destruct A1 as ((-> & _) & _); reflexivity.
    + left; specialize (Hd (digit_in_valid _ Hdig)); lia.
Qed.

Lemma step_lexAny_switch : forall l, lex_wf s l -> step_ok uni s l (lexAny_switch uni l).
Proof.
  intros l Hw; unfold lexAny_switch.
  destruct (lexer_next l) as [r l1] eqn:E.
  destruct (next_spec l r l1 Hw E) as ((Hw1 & Hs1 & Hp1) & Hprog & Hbw & Hbp & Hbs).
  pose proof (proj2 Hw) as Hsp.
  destruct (r =? eof) eqn:Heof.
  { destruct (0 <? parenDepth l1); [apply ok_errorf; lia|].
    destruct (0 <? curlyDepth l1); [apply ok_errorf; lia|].
    destruct (emit tokenEOF l1) as [t l2] eqn:Em.
    destruct (emit_spec tokenEOF l1 t l2 Hw1 Em) as (Ht & Htp & _).
    unfold step_ok; split; [constructor; [right; left; exact Ht | constructor]|].
    split; [exists (S (tpos t)); simpl; lia | apply err_last_single]. }
  apply Z.eqb_neq in Heof; specialize (Hprog Heof).
  assert (Hr1 : (start l <= start l1 < pos l1)%nat) by lia.
  assert (Hin : input (lexer_backup l1) = input l) by (rewrite (proj1 Hbw); exact (eq_sym (proj1 Hw))).
  destruct (isSpace r || isEndOfLine r); [apply ok_silent; [exact Hw1 | exact I | lia]|].
  destruct ((r =? rune_of "."%char) || is_digit_rune r) eqn:Hnum.
  { apply ok_silent; [exact Hbw | | lia].
    cbn [entry]; rewrite (next_rune_eq (lexer_backup l1) l Hin Hbp), E; simpl.
    apply Bool.orb_true_iff in Hnum; destruct Hnum as [H|H];
      [left; apply Z.eqb_eq; exact H | right; exact H]. }
  destruct (isAlphaNumeric uni r) eqn:Hal.
  { apply ok_silent; [exact Hbw | | lia].
    cbn [entry]; rewrite (next_rune_eq (lexer_backup l1) l Hin Hbp), E; exact Hal. }
  destruct (r =? rune_of "/"%char).
  { destruct (lexer_peek l1) as [r2 l2] eqn:E2.
    destruct (peek_spec l1 r2 l2 Hw1 E2) as (Hw2 & Hp2 & Hs2 & _).
    destruct (r2 =? rune_of "/"%char).
    { destruct (lexer_next l2) as [x l3] eqn:E3.
      destruct (next_spec l2 x l3 Hw2 E3) as ((Hw3 & Hs3 & _) & _).
      apply ok_silent; [exact Hw3 | exact I | lia]. }
    destruct (lexer_peek l2) as [r3 l3] eqn:E3.
    destruct (peek_spec l2 r3 l3 Hw2 E3) as (Hw3 & Hp3 & Hs3 & _).
    destruct (r3 =? rune_of "*"%char).
    { destruct (lexer_next l3) as [x l4] eqn:E4.
      destruct (next_spec l3 x l4 Hw3 E4) as ((Hw4 & Hs4 & _) & _).
      apply ok_silent; [exact Hw4 | exact I | lia]. }
    apply ok_emit_any; [exact Hw3 | lia | discriminate]. }
  destruct (r =? rune_of "="%char); [apply ok_emit_any; [exact Hw1 | lia | discriminate]|].
  destruct (isOperator r); [apply ok_emit_any; [exact Hw1 | lia | discriminate]|].
  destruct (r =? rune_of ":"%char); [apply ok_emit_any; [exact Hw1 | lia | discriminate]|].
  destruct (r =? rune_of ","%char); [apply ok_emit_any; [exact Hw1 | lia | discriminate]|].
  destruct (r =? rune_of "("%char).
  { destruct (emit tokenLeftParen l1) as [t l2] eqn:Em.
    destruct (emit_spec _ l1 t l2 Hw1 Em) as (_ & _ & _ & _ & Hw2 & _).
    exact (ok_emit l l1 tokenLeftParen LexAny t l2 _ Hw1 ltac:(lia) ltac:(discriminate) Em
             Hw2 eq_refl eq_refl I). }
  destruct (r =? rune_of ")"%char).
  { destruct (emit tokenRightParen l1) as [t l2] eqn:Em.
    destruct (emit_spec _ l1 t l2 Hw1 Em) as (Ht & Htp & _ & Hsl & Hw2 & Hs2 & Hp2).
    cbv zeta; simpl parenDepth.
    destruct (parenDepth l2 - 1 <? 0).
    - unfold step_ok, errorf; simpl.
      split; [constructor; [right; right; exact Hsl | constructor; [left; reflexivity | constructor]]|].
      split; [exists (S (start l2)); simpl; lia|].
      apply (err_last_app [t]); [constructor; [rewrite Ht; discriminate | constructor] | apply err_last_single].
    - exact (ok_emit l l1 tokenRightParen LexAny t l2 _ Hw1 ltac:(lia) ltac:(discriminate) Em
               Hw2 eq_refl eq_refl I). }
  destruct (r =? rune_of "{"%char).
  { destruct (emit tokenLeftCurly l1) as [t l2] eqn:Em.
    destruct (emit_spec _ l1 t l2 Hw1 Em) as (_ & _ & _ & _ & Hw2 & _).
    exact (ok_emit l l1 tokenLeftCurly LexAny t l2 _ Hw1 ltac:(lia) ltac:(discriminate) Em
             Hw2 eq_refl eq_refl I). }
  destruct (r =? rune_of "}"%char).
  { destruct (emit tokenRightCurly l1) as [t l2] eqn:Em.
    destruct (emit_spec _ l1 t l2 Hw1 Em) as (Ht & Htp & _ & Hsl & Hw2 & Hs2 & Hp2).
    cbv zeta; simpl parenDepth.
    destruct (parenDepth l2 <? 0).
    - unfold step_ok, errorf; simpl.
      split; [constructor; [right; right; exact Hsl | constructor; [left; reflexivity | constructor]]|].
      split; [exists (S (start l2)); simpl; lia|].
      apply (err_last_app [t]); [constructor; [rewrite Ht; discriminate | constructor] | apply err_last_single].
    - exact (ok_emit l l1 tokenRightCurly LexAny t l2 _ Hw1 ltac:(lia) ltac:(discriminate) Em
               Hw2 eq_refl eq_refl I). }
  destruct (r =? 34); [apply ok_silent; [exact Hw1 | cbn [entry]; lia | lia]|].
  destruct (r =? rune_of "'"%char); [apply ok_silent; [exact Hw1 | cbn [entry]; lia | lia]|].
  destruct (r =? rune_of "["%char).
  { destruct (lexer_peek l1) as [rn l2] eqn:E2.
    destruct (peek_spec l1 rn l2 Hw1 E2) as (Hw2 & Hp2 & Hs2 & Hrn).
    destruct ((rn =? rune_of "."%char) || is_digit_rune rn) eqn:Hnum2.
    { destruct (emit tokenLeftSquare l2) as [t l3] eqn:Em.
      destruct (emit_spec _ l2 t l3 Hw2 Em) as (_ & _ & _ & _ & Hw3 & Hs3 & Hp3).
      refine (ok_emit l l2 tokenLeftSquare LexNumber t l3
                (with_depths l3 (parenDepth l3) (curlyDepth l3) (squareDepth l3 + 1)) Hw2 ltac:(lia) ltac:(discriminate) Em
                Hw3 eq_refl eq_refl _).
      cbn [entry]; rewrite (next_rune_eq _ l1); [rewrite <- Hrn | | simpl; lia].
      - apply Bool.orb_true_iff in Hnum2; destruct Hnum2 as [H|H];
          [left; apply Z.eqb_eq; exact H | right; exact H].
      - simpl; rewrite (proj1 Hw3); exact (eq_sym (proj1 Hw1)). }
    destruct (negb (rn =? rune_of "]"%char)); [apply ok_errorf; lia|].
    destruct (lexer_next l2) as [x l3] eqn:E3.
    destruct (next_spec l2 x l3 Hw2 E3) as ((Hw3 & Hs3 & Hp3) & _).
    apply ok_emit_any; [exact Hw3 | lia | discriminate]. }
  destruct (r =? rune_of ";"%char); [apply ok_emit_any; [exact Hw1 | lia | discriminate]|].
  apply ok_errorf; lia.
Qed.

Lemma step_lexAny : forall l, lex_wf s l -> step_ok uni s l (lexAny uni l).
Proof.
  intros l Hw; unfold lexAny.
  destruct (0 <? squareDepth l); [|exact (step_lexAny_switch l Hw)].
  destruct (lexer_next l) as [r l1] eqn:E.
  destruct (next_spec l r l1 Hw E) as ((Hw1 & Hs1 & Hp1) & Hprog & _).
  pose proof (proj2 Hw) as Hsp.
  destruct (r =? rune_of "]"%char) eqn:Hr; [|apply ok_errorf; lia].
  assert (Hne : r <> eof) by (apply Z.eqb_eq in Hr; rewrite Hr; discriminate).
  specialize (Hprog Hne).
  destruct (emit tokenRightSquare l1) as [t l2] eqn:Em.
  destruct (emit_spec _ l1 t l2 Hw1 Em) as (Ht & Htp & _ & Hsl & Hw2 & Hs2 & Hp2).
  pose proof (step_lexAny_switch l2 Hw2) as Hsw.
  destruct (lexAny_switch uni l2) as [[ts l3] nx].
  unfold step_ok in Hsw |- *; destruct Hsw as [Hsl' Hnx].
  split; [constructor; [right; right; exact Hsl | exact Hsl']|].
  destruct nx as [st|].
  - destruct Hnx as (Hw3 & He3 & Hc & Hne3).
    split; [exact Hw3|]; split; [exact He3|]; split.
    + simpl; split; [lia|]; exact (chainto_mono ts (start l2) (S (tpos t)) _ ltac:(lia) Hc).
    + constructor; [rewrite Ht; discriminate | exact Hne3].
  - destruct Hnx as ([e Hc] & Hel); split.
    + exists e; simpl; split; [lia|]; exact (chainto_mono ts (start l2) (S (tpos t)) _ ltac:(lia) Hc).
    + apply (err_last_app [t] ts); [constructor; [rewrite Ht; discriminate | constructor] | exact Hel].
Qed.

Lemma step_spec : forall st l, lex_wf s l -> entry uni st l -> step_ok uni s l (step uni st l).
Proof.
  intros [] l Hw He; cbn [step].
  - exact (step_lexAny l Hw).
  - exact (step_lexComment l Hw).
  - exact (step_lexBlockComment l Hw).
  - exact (step_lexSpace l Hw).
  - exact (step_lexIdentifier l Hw He).
  - exact (step_lexQuoted l 34 tokenQuote "unterminated string" Hw He ltac:(discriminate)).
  - exact (step_lexQuoted l (rune_of "'"%char) tokenRawchar "unterminated character constant"
             Hw He ltac:(discriminate)).
  - exact (step_lexNumber l Hw He).
Qed.

Lemma run_spec : forall n st l, lex_wf s l -> entry uni st l ->
  Forall (is_slice s) (run uni n st l) /\ (exists e, chainto (start l) (run uni n st l) e) /\
  err_last (run uni n st l).
Proof.
  induction n as [|n IH]; intros st l Hw He.
  - cbn [run]; split; [constructor|]; split; [exists (start l); simpl; lia|].
    intros [|p pre] t suf H; discriminate H.
  - cbn [run]; pose proof (step_spec st l Hw He) as Hs.
    destruct (step uni st l) as [[ts l'] nx]; unfold step_ok in Hs; destruct Hs as [Hsl Hnx].
    destruct nx as [st'|].
    + destruct Hnx as (Hw' & He' & Hc & Hne).
      destruct (IH st' l' Hw' He') as (Hsl2 & [e Hc2] & Hel2).
      split; [apply Forall_app; split; assumption|].
      split; [exists e; exact (chainto_app ts _ _ _ e Hc Hc2)|].
      exact (err_last_app ts _ Hne Hel2).
    + destruct Hnx as ([e Hc] & Hel); rewrite app_nil_r.
      split; [exact Hsl | split; [exists e; exact Hc | exact Hel]].
Qed.

(** The measure of [lex_measure] decreases along every transition. *)

Lemma dec_errorf : forall m l msg, step_dec s m (errorf l msg).
Proof.
  intros m l msg; unfold step_dec, errorf.
  exists [], (mkToken tokenError (start l) msg); split; [reflexivity | right; reflexivity].
Qed.

Lemma dec_emit_any : forall m l k, (lex_measure s LexAny l < m)%nat -> step_dec s m (emit_any k l).
Proof. intros m l k H; unfold step_dec, emit_any, emit; simpl; exact H. Qed.

Lemma dec_lexComment : forall l, lex_wf s l -> step_dec s (lex_measure s LexComment l) (lexComment l).
Proof.
  intros l [Hi Hp]; unfold lexComment.
  destruct (index_endline (input l) (pos l)) as [i|] eqn:E; [|apply dec_errorf].
  apply index_endline_spec in E; rewrite Hi in E.
  unfold step_dec, lex_measure, ignore, with_start, with_pos; simpl; lia.
Qed.

Lemma dec_lexBlockComment : forall l, lex_wf s l ->
  step_dec s (lex_measure s LexBlockComment l) (lexBlockComment l).
Proof.
  intros l [Hi Hp]; unfold lexBlockComment.
  destruct (index_block_end (input l) (pos l)) as [i|] eqn:E; [|apply dec_errorf].
  apply index_block_end_spec in E; rewrite Hi in E.
  unfold step_dec, lex_measure, ignore, with_start, with_pos; simpl; lia.
Qed.

Lemma dec_lexSpace : forall l, lex_wf s l -> step_dec s (lex_measure s LexSpace l) (lexSpace l).
Proof.
  intros l Hw; unfold lexSpace.
  pose proof (lexSpace_loop_adv (S (String.length (input l))) l Hw) as ((_ & Hp') & _ & Hp).
  set (l' := lexSpace_loop _ l) in *; clearbody l'.
  unfold step_dec, lex_measure, ignore, with_start; simpl; lia.
Qed.

(** The quoted-literal loop succeeds only after reading the closing rune. *)
Lemma lexQuoted_loop_true : forall n c l l', lex_wf s l -> c <> eof ->
  lexQuoted_loop (S n) c l = (true, l') -> (pos l < pos l')%nat.
Proof.
  intros n c l l' Hw Hc; cbn [lexQuoted_loop].
  destruct (lexer_next l) as [x l1] eqn:E.
  destruct (next_spec l x l1 Hw E) as (A1 & Hprog & _).
  destruct (x =? 92) eqn:Ex.
  - assert (Hx : x <> eof) by (apply Z.eqb_eq in Ex; rewrite Ex; discriminate).
    specialize (Hprog Hx).
    destruct (lexer_next l1) as [x2 l2] eqn:E2.
    destruct (next_spec l1 x2 l2 (proj1 A1) E2) as (A2 & _).
    destruct (negb (x2 =? eof) && negb (x2 =? 10)); [|discriminate].
    intros H; pose proof (lexQuoted_loop_adv n c l2 true l' (proj1 A2) H) as (_ & _ & H3).
    destruct A2 as (_ & _ & H2); lia.
  - destruct ((x =? eof) || (x =? 10)) eqn:Ee; [discriminate|].
    apply Bool.orb_false_iff in Ee; destruct Ee as [Ee _]; apply Z.eqb_neq in Ee.
    specialize (Hprog Ee).
    destruct (x =? c).
    + intros H; injection H as <-; exact Hprog.
    + intros H; pose proof (lexQuoted_loop_adv n c l1 true l' (proj1 A1) H) as (_ & _ & H3); lia.
Qed.

Lemma dec_lexQuoted : forall l c k msg, lex_wf s l -> c <> eof ->
  step_dec s (lex_measure s LexQuote l)
    (let '(ok, l) := lexQuoted_loop (S (String.length (input l))) c l in
     if ok then emit_any k l else errorf l msg).
Proof.
  intros l c k msg Hw Hc.
  destruct (lexQuoted_loop _ c l) as [ok l2] eqn:E.
  destruct (lexQuoted_loop_adv _ c l ok l2 Hw E) as ((_ & Hp2) & _).
  destruct ok; [|apply dec_errorf].
  apply dec_emit_any; pose proof (lexQuoted_loop_true _ c l l2 Hw Hc E).
  unfold lex_measure; simpl; lia.
Qed.

Lemma dec_lexIdentifier : forall l, lex_wf s l -> entry uni LexIdentifier l ->
  step_dec s (lex_measure s LexIdentifier l) (lexIdentifier uni l).
Proof.
  intros l Hw He; simpl in He; unfold lexIdentifier.
  destruct (lexIdentifier_loop uni (S (String.length (input l))) l) as [r l1] eqn:E1.
  pose proof (lexIdentifier_loop_first _ l r l1 Hw He E1) as Hprog.
  destruct (lexIdentifier_loop_adv _ l r l1 Hw E1) as (Hw1 & Hs1 & Hp1).
  destruct (atTerminator l1) as [term l2] eqn:E2.
  destruct (atTerminator_spec l1 term l2 Hw1 E2) as ((_ & Hb2) & Hp2 & Hs2).
  assert (Hm : (lex_measure s LexAny l2 < lex_measure s LexIdentifier l)%nat)
    by (unfold lex_measure; simpl; lia).
  destruct (negb term); [apply dec_errorf|].
  destruct (_ <? _); [apply dec_emit_any; exact Hm|].
  destruct (_ || _); apply dec_emit_any; exact Hm.
Qed.

Lemma dec_number_peek : forall l0 lf, lex_wf s l0 -> adv l0 lf -> (pos l0 < pos lf)%nat ->
  step_dec s (lex_measure s LexNumber l0)
    (let '(r, l) := lexer_peek lf in
     if isAlphaNumeric uni r then
       let '(_, l) := lexer_next l in
       errorf l ("bad number syntax: " +++ Quote uni (substring (start l) (pos l - start l) (input l)))
     else emit_any tokenNumber l).
Proof.
  intros l0 lf Hw0 Af Hpf.
  destruct (lexer_peek lf) as [r lp] eqn:Ep.
  destruct Af as (Hwf & Hsf & _).
  destruct (peek_spec lf r lp Hwf Ep) as (Hwp & Hpp & Hsp & _).
  destruct (isAlphaNumeric uni r).
  - destruct (lexer_next lp) as [x ln] eqn:En.
    apply dec_errorf.
  - apply dec_emit_any; unfold lex_measure; simpl; destruct Hwp as (_ & Hb); lia.
Qed.

Lemma dec_number_tail : forall l0 encode digits l3, lex_wf s l0 -> adv l0 l3 ->
  ((pos l0 < pos l3)%nat \/ (digits = decimalDigits /\ fst (lexer_next l3) = rune_of "."%char)) ->
  step_dec s (lex_measure s LexNumber l0)
   (let '(adot, l) := accept "." l3 in
    let frac : stepResult + lexer :=
      if adot then
        if negb (String.eqb digits decimalDigits) then
          inl (errorf l ("non-decimal number (starting with '" +++ encode
                         +++ "') cannot contain a decimal point."))
        else inr (acceptRun digits l)
      else inr l in
    match frac with
    | inl e => e
    | inr l =>
      let '(r, l) := lexer_peek l in
      if isAlphaNumeric uni r then
        let '(_, l) := lexer_next l in
        errorf l ("bad number syntax: " +++ Quote uni (substring (start l) (pos l - start l) (input l)))
      else emit_any tokenNumber l
    end).
Proof.
  intros l0 encode digits l3 Hw0 A3 Hpr.
  destruct (accept "." l3) as [adot l4] eqn:E4.
  destruct (accept_spec "." l3 adot l4 (proj1 A3) E4) as (A4 & Hb1 & Hb0).
  pose proof (adv_trans _ _ _ A3 A4) as A04.
  assert (Hpos : (pos l0 < pos l4)%nat).
  { destruct adot.
    - specialize (Hb1 eq_refl); destruct A3 as (_ & _ & ?); lia.
    - destruct Hpr as [H | [Hd Hr]]; [rewrite (Hb0 eq_refl); exact H|].
      pose proof (accept_true "." l3) as Ht; rewrite E4, Hr in Ht; discriminate (Ht eq_refl). }
  destruct adot; cbv zeta.
  - destruct (negb (String.eqb digits decimalDigits)).
    + apply dec_errorf.
    + apply dec_number_peek; [exact Hw0| |].
      * exact (adv_trans _ _ _ A04 (acceptRun_loop_adv _ _ _ (proj1 A04))).
      * pose proof (acceptRun_loop_adv (S (String.length (input l4))) digits l4 (proj1 A04))
          as (_ & _ & ?).
        unfold acceptRun; lia.
  - apply dec_number_peek; [exact Hw0 | exact A04 | exact Hpos].
Qed.

Lemma dec_lexNumber : forall l, lex_wf s l -> entry uni LexNumber l ->
  step_dec s (lex_measure s LexNumber l) (lexNumber uni l).
Proof.
  intros l Hw He; simpl in He; unfold lexNumber.
  destruct (accept "0" l) as [a0 l1] eqn:E1.
  destruct (accept_spec "0" l a0 l1 Hw E1) as (A1 & Hb1 & Hb0).
  destruct a0.
  - specialize (Hb1 eq_refl).
    destruct (accept "xX" l1) as [ax l2] eqn:E2.
    destruct (accept_spec "xX" l1 ax l2 (proj1 A1) E2) as (A2 & _).
    destruct ax.
    + pose proof (acceptRun_loop_adv (S (String.length (input l2))) hexadecimalDigits l2
                    (proj1 A2)) as A3.
      refine (dec_number_tail l hexadecimalEncode hexadecimalDigits _ Hw _ _);
        [exact (adv_trans _ _ _ A1 (adv_trans _ _ _ A2 A3))|].
      left; destruct A2 as (_ & _ & ?); destruct A3 as (_ & _ & ?); unfold acceptRun; lia.
    + destruct (accept "bB" l2) as [ab l3] eqn:E3.
      destruct (accept_spec "bB" l2 ab l3 (proj1 A2) E3) as (A3 & _).
      destruct ab.
      * pose proof (acceptRun_loop_adv (S (String.length (input l3))) binaryDigits l3
                      (proj1 A3)) as A4.
        refine (dec_number_tail l binaryEncode binaryDigits _ Hw _ _);
          [exact (adv_trans _ _ _ A1 (adv_trans _ _ _ A2 (adv_trans _ _ _ A3 A4)))|].
        left; destruct A2 as (_ & _ & ?); destruct A3 as (_ & _ & ?); destruct A4 as (_ & _ & ?);
          unfold acceptRun; lia.
      * pose proof (acceptRun_loop_adv (S (String.length (input l3))) octalDigits l3
                      (proj1 A3)) as A4.
        refine (dec_number_tail l octalEncode octalDigits _ Hw _ _);
          [exact (adv_trans _ _ _ A1 (adv_trans _ _ _ A2 (adv_trans _ _ _ A3 A4)))|].
        left; destruct A2 as (_ & _ & ?); destruct A3 as (_ & _ & ?); destruct A4 as (_ & _ & ?);
          unfold acceptRun; lia.
  - specialize (Hb0 eq_refl).
    assert (Hr : fst (lexer_next l1) = fst (lexer_next l)).
    { apply next_rune_eq; [destruct A1 as ((-> & _) & _); exact (eq_sym (proj1 Hw)) | exact Hb0]. }
    pose proof (acceptRun_loop_adv (S (String.length (input l1))) decimalDigits l1
                  (proj1 A1)) as A3.
    pose proof (acceptRun_loop_first (String.length (input l1)) decimalDigits l1 (proj1 A1))
      as [Hd Hnd].
    refine (dec_number_tail l decimalEncode decimalDigits _ Hw (adv_trans _ _ _ A1 A3) _).
    unfold acceptRun; rewrite Hr in Hd, Hnd.
    destruct He as [Hdot | Hdig].
    + right; split; [reflexivity|].
      rewrite Hdot in Hnd; specialize (Hnd eq_refl).
      rewrite (next_rune_eq _ l1); [exact (eq_trans Hr Hdot) | |exact Hnd].
      destruct A3 as ((-> & _) & _); destruct A1 as ((-> & _) & _); reflexivity.
    + left; specialize (Hd (digit_in_valid _ Hdig)); lia.
Qed.


Lemma dec_lexAny_switch : forall l, lex_wf s l ->
  step_dec s (lex_measure s LexAny l) (lexAny_switch uni l).
Proof.
  intros l Hw; unfold lexAny_switch.
  destruct (lexer_next l) as [r l1] eqn:E.
  destruct (next_spec l r l1 Hw E) as ((Hw1 & Hs1 & Hp1) & Hprog & Hbw & Hbp & Hbs).
  pose proof (proj2 Hw1) as Hsp1.
  destruct (r =? eof) eqn:Heof.
  { destruct (0 <? parenDepth l1); [apply dec_errorf|].
    destruct (0 <? curlyDepth l1); [apply dec_errorf|].
    unfold step_dec, emit; simpl.
    eexists []; eexists; split; [reflexivity | left; reflexivity]. }
  apply Z.eqb_neq in Heof; specialize (Hprog Heof).
  assert (Hm1 : (lex_measure s LexAny l1 < lex_measure s LexAny l)%nat)
    by (unfold lex_measure; simpl; lia).
  destruct (isSpace r || isEndOfLine r).
  { unfold step_dec, lex_measure; simpl; lia. }
  destruct ((r =? rune_of "."%char) || is_digit_rune r).
  { unfold step_dec, lex_measure; rewrite Hbp; simpl; lia. }
  destruct (isAlphaNumeric uni r).
  { unfold step_dec, lex_measure; rewrite Hbp; simpl; lia. }
  destruct (r =? rune_of "/"%char).
  { destruct (lexer_peek l1) as [r2 l2] eqn:E2.
    destruct (peek_spec l1 r2 l2 Hw1 E2) as (Hw2 & Hp2 & Hs2 & _).
    destruct (r2 =? rune_of "/"%char).
    { destruct (lexer_next l2) as [x l3] eqn:E3.
      destruct (next_spec l2 x l3 Hw2 E3) as ((Hw3 & Hs3 & Hp3) & _).
      unfold step_dec, lex_measure; simpl; destruct Hw3 as (_ & Hb3); lia. }
    destruct (lexer_peek l2) as [r3 l3] eqn:E3.
    destruct (peek_spec l2 r3 l3 Hw2 E3) as (Hw3 & Hp3 & Hs3 & _).
    destruct (r3 =? rune_of "*"%char).
    { destruct (lexer_next l3) as [x l4] eqn:E4.
      destruct (next_spec l3 x l4 Hw3 E4) as ((Hw4 & Hs4 & Hp4) & _).
      unfold step_dec, lex_measure; simpl; destruct Hw4 as (_ & Hb4); lia. }
    apply dec_emit_any; unfold lex_measure; simpl; lia. }
  destruct (r =? rune_of "="%char); [apply dec_emit_any; exact Hm1|].
  destruct (isOperator r); [apply dec_emit_any; exact Hm1|].
  destruct (r =? rune_of ":"%char); [apply dec_emit_any; exact Hm1|].
  destruct (r =? rune_of ","%char); [apply dec_emit_any; exact Hm1|].
  destruct (r =? rune_of "("%char).
  { destruct (emit tokenLeftParen l1) as [t l2] eqn:Em.
    destruct (emit_spec _ l1 t l2 Hw1 Em) as (_ & _ & _ & _ & _ & _ & Hp2).
    unfold step_dec, lex_measure; simpl; lia. }
  destruct (r =? rune_of ")"%char).
  { destruct (emit tokenRightParen l1) as [t l2] eqn:Em.
    destruct (emit_spec _ l1 t l2 Hw1 Em) as (_ & _ & _ & _ & _ & _ & Hp2).
    cbv zeta; simpl parenDepth.
    destruct (parenDepth l2 - 1 <? 0).
    - unfold step_dec, errorf; simpl.
      exists [t]; eexists; split; [reflexivity | right; reflexivity].
    - unfold step_dec, lex_measure; simpl; lia. }
  destruct (r =? rune_of "{"%char).
  { destruct (emit tokenLeftCurly l1) as [t l2] eqn:Em.
    destruct (emit_spec _ l1 t l2 Hw1 Em) as (_ & _ & _ & _ & _ & _ & Hp2).
    unfold step_dec, lex_measure; simpl; lia. }
  destruct (r =? rune_of "}"%char).
  { destruct (emit tokenRightCurly l1) as [t l2] eqn:Em.
    destruct (emit_spec _ l1 t l2 Hw1 Em) as (_ & _ & _ & _ & _ & _ & Hp2).
    cbv zeta; simpl parenDepth.
    destruct (parenDepth l2 <? 0).
    - unfold step_dec, errorf; simpl.
      exists [t]; eexists; split; [reflexivity | right; reflexivity].
    - unfold step_dec, lex_measure; simpl; lia. }
  destruct (r =? 34); [unfold step_dec, lex_measure; simpl; lia|].
  destruct (r =? rune_of "'"%char); [unfold step_dec, lex_measure; simpl; lia|].
  destruct (r =? rune_of "["%char).
  { destruct (lexer_peek l1) as [rn l2] eqn:E2.
    destruct (peek_spec l1 rn l2 Hw1 E2) as (Hw2 & Hp2 & Hs2 & _).
    destruct ((rn =? rune_of "."%char) || is_digit_rune rn).
    { destruct (emit tokenLeftSquare l2) as [t l3] eqn:Em.
      destruct (emit_spec _ l2 t l3 Hw2 Em) as (_ & _ & _ & _ & _ & _ & Hp3).
      unfold step_dec, lex_measure; simpl; lia. }
    destruct (negb (rn =? rune_of "]"%char)); [apply dec_errorf|].
    destruct (lexer_next l2) as [x l3] eqn:E3.
    destruct (next_spec l2 x l3 Hw2 E3) as ((Hw3 & Hs3 & Hp3) & _).
    apply dec_emit_any; unfold lex_measure; simpl; destruct Hw3 as (_ & Hb3); lia. }
  destruct (r =? rune_of ";"%char); [apply dec_emit_any; exact Hm1|].
  apply dec_errorf.
Qed.

Lemma dec_lexAny : forall l, lex_wf s l -> step_dec s (lex_measure s LexAny l) (lexAny uni l).
Proof.
  intros l Hw; unfold lexAny.
  destruct (0 <? squareDepth l); [|exact (dec_lexAny_switch l Hw)].
  destruct (lexer_next l) as [r l1] eqn:E.
  destruct (next_spec l r l1 Hw E) as ((Hw1 & Hs1 & Hp1) & Hprog & _).
  destruct (r =? rune_of "]"%char) eqn:Hr; [|apply dec_errorf].
  assert (Hne : r <> eof) by (apply Z.eqb_eq in Hr; rewrite Hr; discriminate).
  specialize (Hprog Hne).
  destruct (emit tokenRightSquare l1) as [t l2] eqn:Em.
  destruct (emit_spec _ l1 t l2 Hw1 Em) as (_ & _ & _ & _ & Hw2 & _ & Hp2).
  pose proof (dec_lexAny_switch l2 Hw2) as Hsw.
  destruct (lexAny_switch uni l2) as [[ts l3] nx].
  unfold step_dec in Hsw |- *.
  destruct nx as [st|].
  - assert (lex_measure s LexAny l2 < lex_measure s LexAny l)%nat
      by (unfold lex_measure; simpl; destruct Hw1 as (_ & Hb1); lia).
    lia.
  - destruct Hsw as (pre & t' & -> & Ht').
    exists (t :: pre), t'; split; [reflexivity | exact Ht'].
Qed.

Lemma dec_step : forall st l, lex_wf s l -> entry uni st l ->
  step_dec s (lex_measure s st l) (step uni st l).
Proof.
  intros [] l Hw He; cbn [step].
  - exact (dec_lexAny l Hw).
  - exact (dec_lexComment l Hw).
  - exact (dec_lexBlockComment l Hw).
  - exact (dec_lexSpace l Hw).
  - exact (dec_lexIdentifier l Hw He).
  - exact (dec_lexQuoted l 34 tokenQuote "unterminated string" Hw ltac:(discriminate)).
  - exact (dec_lexQuoted l (rune_of "'"%char) tokenRawchar "unterminated character constant"
             Hw ltac:(discriminate)).
  - exact (dec_lexNumber l Hw He).
Qed.

(** The lexer stops within [lex_measure] steps, on an EOF or error token,
    and more fuel does not change its output. *)
Lemma run_terminates : forall n st l, lex_wf s l -> entry uni st l ->
  (lex_measure s st l < n)%nat ->
  (forall m, (n <= m)%nat -> run uni m st l = run uni n st l) /\
  exists pre t, run uni n st l = pre ++ [t] /\ (typ t = tokenEOF \/ typ t = tokenError).
Proof.
  induction n as [|n IH]; intros st l Hw He Hlt; [lia|].
  pose proof (step_spec st l Hw He) as Hok.
  pose proof (dec_step st l Hw He) as Hd.
  split.
  - intros [|m] Hm; [lia|]; cbn [run].
    destruct (step uni st l) as [[ts l'] nx]; unfold step_ok, step_dec in *.
    destruct nx as [st'|]; [|reflexivity].
    destruct Hok as (_ & Hw' & He' & _).
    rewrite (proj1 (IH st' l' Hw' He' ltac:(lia)) m ltac:(lia)); reflexivity.
  - cbn [run].
    destruct (step uni st l) as [[ts l'] nx]; unfold step_ok, step_dec in *.
    destruct nx as [st'|].
    + destruct Hok as (_ & Hw' & He' & _).
      destruct (proj2 (IH st' l' Hw' He' ltac:(lia))) as (pre & t & -> & Ht).
      exists (ts ++ pre), t; split; [rewrite app_assoc; reflexivity | exact Ht].
    + destruct Hd as (pre & t & -> & Ht).
      exists pre, t; split; [apply app_nil_r | exact Ht].
Qed.

(** Only lexIdentifier emits identifier tokens. *)

Ltac split_step :=
  repeat (cbv beta iota zeta; match goal with
  | |- context [lexer_next ?x] => destruct (lexer_next x)
  | |- context [lexer_peek ?x] => destruct (lexer_peek x)
  | |- context [accept ?v ?x] => destruct (accept v x)
  | |- context [lexQuoted_loop ?n ?c ?x] => destruct (lexQuoted_loop n c x)
  | |- context [index_endline ?a ?b] => destruct (index_endline a b)
  | |- context [index_block_end ?a ?b] => destruct (index_block_end a b)
  | |- context [if ?b then _ else _] => destruct b
  end);
  repeat constructor; cbn [typ]; discriminate.

Lemma step_no_ident : forall st l, st <> LexIdentifier ->
  Forall (fun t => typ t <> tokenIdentifier) (fst (fst (step uni st l))).
Proof.
  intros [] l Hst; [| | | | contradiction Hst; reflexivity | | |]; cbn [step];
  unfold lexAny, lexAny_switch, lexComment, lexBlockComment, lexSpace, lexQuote, lexChar,
    lexNumber, errorf, emit_any, emit; split_step.
Qed.


Lemma key_cases : forall w,
  key w = tokenError \/ (tokenType_val tokenKeyDelim < tokenType_val (key w))%Z.
Proof.
  intros w; unfold key.
  repeat match goal with
  | |- context [String.eqb w ?c] => destruct (String.eqb w c)
  end; first [left; reflexivity | right; reflexivity].
Qed.

Lemma lexIdentifier_ident_ok : forall l, lex_wf s l ->
  Forall ident_ok (fst (fst (lexIdentifier uni l))).
Proof.
  intros l Hw; unfold lexIdentifier.
  destruct (lexIdentifier_loop uni _ l) as [r l1] eqn:E1.
  destruct (lexIdentifier_loop_adv _ l r l1 Hw E1) as (Hw1 & _).
  destruct (atTerminator l1) as [term l2] eqn:E2.
  destruct (atTerminator_spec l1 term l2 Hw1 E2) as (Hw2 & Hp2 & Hs2).
  assert (Hword : substring (start l2) (pos l2 - start l2) (input l2)
                  = substring (start l1) (pos l1 - start l1) (input l1))
    by (rewrite Hp2, Hs2, (proj1 Hw2), (proj1 Hw1); reflexivity).
  cbv zeta.
  destruct (negb term).
  { unfold errorf; cbn [fst]; constructor; [unfold ident_ok; cbn [typ]; discriminate | constructor]. }
  unfold emit_any, emit; rewrite Hword.
  destruct (tokenType_val tokenKeyDelim <? tokenType_val (key _)) eqn:Ek.
  { cbn [fst]; constructor; [|constructor]; unfold ident_ok; cbn [typ val]; intros Hk.
    rewrite Hk in Ek; discriminate Ek. }
  destruct (_ || _) eqn:Eb.
  { cbn [fst]; constructor; [unfold ident_ok; cbn [typ]; discriminate | constructor]. }
  cbn [fst]; constructor; [|constructor]; unfold ident_ok; cbn [typ val]; intros _.
  apply Bool.orb_false_iff in Eb; destruct Eb as [Et Ef].
  apply String.eqb_neq in Et, Ef.
  split; [|split; assumption].
  destruct (key_cases (substring (start l1) (pos l1 - start l1) (input l1))) as [H|H];
    [exact H | apply Z.ltb_lt in H; rewrite H in Ek; discriminate Ek].
Qed.

Lemma step_ident_ok : forall st l, lex_wf s l ->
  Forall ident_ok (fst (fst (step uni st l))).
Proof.
  intros st l Hw; destruct st; [| | | | exact (lexIdentifier_ident_ok l Hw) | | |];
    (eapply Forall_impl; [|apply step_no_ident; discriminate]);
    intros t Ht Hi; contradiction (Ht Hi).
Qed.

Lemma run_ident_ok : forall n st l, lex_wf s l -> entry uni st l ->
  Forall ident_ok (run uni n st l).
Proof.
  induction n as [|n IH]; intros st l Hw He; cbn [run]; [constructor|].
  pose proof (step_spec st l Hw He) as Hok.
  pose proof (step_ident_ok st l Hw) as Hi.
  destruct (step uni st l) as [[ts l'] nx]; unfold step_ok in Hok; cbn [fst] in Hi.
  destruct nx as [st'|]; [|rewrite app_nil_r; exact Hi].
  destruct Hok as (_ & Hw' & He' & _).
  apply Forall_app; split; [exact Hi | exact (IH st' l' Hw' He')].
Qed.

(** Final tokens are emitted last. *)

Ltac fin_close :=
  first
  [ solve [repeat constructor]
  | solve [exists []; eexists; split; [reflexivity | split; [reflexivity | constructor]]]
  | solve [unfold ends_final; match goal with
           | |- exists pre t, ?L = pre ++ [t] /\ _ =>
               exists (removelast L), (last L zero_token);
               split; [reflexivity | split; [reflexivity | repeat constructor]]
           end] ].

Lemma lexIdentifier_fin : forall l, step_fin (lexIdentifier uni l).
Proof.
  intros l; unfold lexIdentifier.
  destruct (lexIdentifier_loop uni _ l) as [r l1].
  destruct (atTerminator l1) as [term l2]; cbv zeta.
  destruct (negb term); [unfold errorf; fin_close|].
  destruct (tokenType_val tokenKeyDelim <? tokenType_val (key _)) eqn:Ek.
  - unfold emit_any, emit, step_fin; constructor; [|constructor].
    destruct (key_cases (substring (start l1) (pos l1 - start l1) (input l1))) as [H|H];
      [rewrite H in Ek; discriminate Ek|].
    unfold final_tok, is_typ; cbn [typ].
    destruct (key _); try reflexivity; cbn in H; lia.
  - destruct (_ || _); unfold emit_any, emit; fin_close.
Qed.

Lemma step_fin_all : forall st l, step_fin (step uni st l).
Proof.
  intros [] l; [| | | | exact (lexIdentifier_fin l) | | |]; cbn [step];
  unfold lexAny, lexAny_switch, lexComment, lexBlockComment, lexSpace, lexQuote, lexChar,
    lexNumber, errorf, emit_any, emit;
  repeat (cbv beta iota zeta; match goal with
  | |- context [lexer_next ?x] => destruct (lexer_next x)
  | |- context [lexer_peek ?x] => destruct (lexer_peek x)
  | |- context [accept ?v ?x] => destruct (accept v x)
  | |- context [lexQuoted_loop ?n ?c ?x] => destruct (lexQuoted_loop n c x)
  | |- context [index_endline ?a ?b] => destruct (index_endline a b)
  | |- context [index_block_end ?a ?b] => destruct (index_block_end a b)
  | |- context [if ?b then _ else _] => destruct b
  end); unfold step_fin; fin_close.
Qed.

Lemma run_ends_final : forall n st l, lex_wf s l -> entry uni st l ->
  (lex_measure s st l < n)%nat -> ends_final (run uni n st l).
Proof.
  induction n as [|n IH]; intros st l Hw He Hlt; [lia|].
  pose proof (step_spec st l Hw He) as Hok.
  pose proof (dec_step st l Hw He) as Hd.
  pose proof (step_fin_all st l) as Hf.
  cbn [run].
  destruct (step uni st l) as [[ts l'] nx]; unfold step_ok, step_dec, step_fin in *.
  destruct nx as [st'|].
  - destruct Hok as (_ & Hw' & He' & _).
    destruct (IH st' l' Hw' He' ltac:(lia)) as (pre & t & -> & Ht & Hpre).
    exists (ts ++ pre), t; split; [rewrite app_assoc; reflexivity|].
    split; [exact Ht | apply Forall_app; split; assumption].
  - rewrite app_nil_r; exact Hf.
Qed.

(** The bracket depths change only where brackets are emitted. *)

Lemma dep_next : forall l, dep (snd (lexer_next l)) = dep l.
Proof.
  intros l; unfold lexer_next.
  destruct (_ <=? _)%nat; [reflexivity|].
  destruct (utf8_DecodeRuneInString _ _); reflexivity.
Qed.

Lemma dep_backup : forall l, dep (lexer_backup l) = dep l.
Proof. intros l; unfold lexer_backup; destruct (canBackup l); reflexivity. Qed.

Lemma dep_peek : forall l, dep (snd (lexer_peek l)) = dep l.
Proof.
  intros l; unfold lexer_peek; pose proof (dep_next l) as D.
  destruct (lexer_next l) as [r l1]; cbn [snd] in *; rewrite dep_backup; exact D.
Qed.

Lemma dep_accept : forall v l, dep (snd (accept v l)) = dep l.
Proof.
  intros v l; unfold accept; pose proof (dep_next l) as D.
  destruct (lexer_next l) as [r l1]; cbn [snd] in *.
  destruct (in_valid v r); cbn [snd]; [|rewrite dep_backup]; exact D.
Qed.

Lemma dep_acceptRun_loop : forall n v l, dep (acceptRun_loop n v l) = dep l.
Proof.
  induction n as [|n IH]; intros v l; cbn [acceptRun_loop]; [reflexivity|].
  pose proof (dep_next l) as D; destruct (lexer_next l) as [r l1]; cbn [snd] in *.
  destruct (in_valid v r); [rewrite IH | rewrite dep_backup]; exact D.
Qed.

Lemma dep_lexSpace_loop : forall n l, dep (lexSpace_loop n l) = dep l.
Proof.
  induction n as [|n IH]; intros l; cbn [lexSpace_loop]; [reflexivity|].
  pose proof (dep_peek l) as D1; destruct (lexer_peek l) as [r1 l1]; cbn [snd] in *.
  destruct (isSpace r1).
  - pose proof (dep_next l1) as D2; destruct (lexer_next l1) as [x l2]; cbn [snd] in *.
    rewrite IH; congruence.
  - pose proof (dep_peek l1) as D2; destruct (lexer_peek l1) as [r2 l2]; cbn [snd] in *.
    repeat match goal with
    | |- context [if ?b then _ else _] => destruct b
    | |- context [lexer_next ?x] =>
        let D := fresh in pose proof (dep_next x) as D; destruct (lexer_next x); cbn [snd] in D
    end; try rewrite IH; congruence.
Qed.

Lemma dep_lexIdentifier_loop : forall n l, dep (snd (lexIdentifier_loop uni n l)) = dep l.
Proof.
  induction n as [|n IH]; intros l; cbn [lexIdentifier_loop]; [reflexivity|].
  pose proof (dep_next l) as D; destruct (lexer_next l) as [r l1]; cbn [snd] in *.
  destruct (isAlphaNumeric uni r); [rewrite IH | cbn [snd]; rewrite dep_backup]; exact D.
Qed.

Lemma dep_lexQuoted_loop : forall n c l, dep (snd (lexQuoted_loop n c l)) = dep l.
Proof.
  induction n as [|n IH]; intros c l; cbn [lexQuoted_loop]; [reflexivity|].
  pose proof (dep_next l) as D; destruct (lexer_next l) as [r l1]; cbn [snd] in *.
  repeat match goal with
  | |- context [if ?b then _ else _] => destruct b
  | |- context [lexer_next ?x] =>
      let D := fresh in pose proof (dep_next x) as D; destruct (lexer_next x); cbn [snd] in D
  end; cbn [snd]; try rewrite IH; congruence.
Qed.

Lemma dep_atTerminator : forall l, dep (snd (atTerminator l)) = dep l.
Proof.
  intros l; unfold atTerminator; pose proof (dep_peek l) as D.
  destruct (lexer_peek l); exact D.
Qed.

End LexerFacts.

(** ** How the lexer moves the bracket depths *)

Lemma bal_app : forall o c a b, bal o c (a ++ b) = bal o c a + bal o c b.
Proof. intros o c a b; unfold bal, count_typ; rewrite !filter_app, !length_app; lia. Qed.

Lemma dep_eq : forall a b, dep a = dep b ->
  parenDepth a = parenDepth b /\ curlyDepth a = curlyDepth b.
Proof. unfold dep; intros a b E; injection E; auto. Qed.

Lemma last_split : forall (ts pre : list token) t,
  ts = pre ++ [t] -> pre = removelast ts /\ t = last ts zero_token.
Proof. intros ts pre t ->; rewrite removelast_last, last_last; auto. Qed.

Ltac ltb_facts :=
  repeat match goal with
  | H : (_ <? _)%Z = true |- _ => apply Z.ltb_lt in H
  | H : (_ <? _)%Z = false |- _ => apply Z.ltb_ge in H
  end.

Ltac dep_split :=
  repeat (cbv beta iota zeta; match goal with
  | |- context [acceptRun_loop ?n ?v ?x] =>
      let D := fresh "D" in let y := fresh "y" in pose proof (dep_acceptRun_loop n v x) as D;
      set (y := acceptRun_loop n v x) in *; clearbody y
  | |- context [lexSpace_loop ?n ?x] =>
      let D := fresh "D" in let y := fresh "y" in pose proof (dep_lexSpace_loop n x) as D;
      set (y := lexSpace_loop n x) in *; clearbody y
  | |- context [lexer_backup ?x] =>
      let D := fresh "D" in let y := fresh "y" in pose proof (dep_backup x) as D;
      set (y := lexer_backup x) in *; clearbody y
  | |- context [lexer_next ?x] =>
      let D := fresh "D" in pose proof (dep_next x) as D;
      destruct (lexer_next x); cbn [snd] in D
  | |- context [lexer_peek ?x] =>
      let D := fresh "D" in pose proof (dep_peek x) as D;
      destruct (lexer_peek x); cbn [snd] in D
  | |- context [accept ?v ?x] =>
      let D := fresh "D" in pose proof (dep_accept v x) as D;
      destruct (accept v x); cbn [snd] in D
  | |- context [lexQuoted_loop ?n ?c ?x] =>
      let D := fresh "D" in pose proof (dep_lexQuoted_loop n c x) as D;
      destruct (lexQuoted_loop n c x); cbn [snd] in D
  | |- context [index_endline ?a ?b] => destruct (index_endline a b)
  | |- context [index_block_end ?a ?b] => destruct (index_block_end a b)
  | |- context [if ?b then _ else _] => destruct b eqn:?
  end).

Tactic Notation "dep_red" := cbn [filter is_typ typ tokenType_eqb tokenType_val List.length
  Z.of_nat Z.eqb Pos.eqb removelast last].
Tactic Notation "dep_red" "in" hyp(H) := cbn [filter is_typ typ tokenType_eqb tokenType_val
  List.length Z.of_nat Z.eqb Pos.eqb removelast last] in H.

Ltac dep_leaf :=
  repeat match goal with D : dep _ = dep _ |- _ => apply dep_eq in D; destruct D end;
  unfold depth_ok, bal, count_typ; cbv beta iota zeta;
  cbn [parenDepth curlyDepth squareDepth with_start with_pos with_depths] in *;
  repeat match goal with
  | H : parenDepth ?a = _ |- _ => rewrite H in *; clear H
  | H : curlyDepth ?a = _ |- _ => rewrite H in *; clear H
  end;
  ltb_facts;
  lazymatch goal with
  | |- _ /\ _ => dep_red; lia
  | _ =>
    let Hn := fresh in let pre := fresh in let t := fresh in
    let E := fresh in let Ht := fresh in
    intros Hn pre t E Ht; apply last_split in E; destruct E as [-> ->];
    dep_red in Ht; dep_red; first [discriminate Ht | lia]
  end.

Section DepthFacts.
Variable uni : UnicodeHi.

Lemma depth_lexComment : forall l, depth_ok l (lexComment l).
Proof.
  intros l; unfold lexComment, errorf, ignore; dep_split; dep_leaf.
Qed.

Lemma depth_lexSpace : forall l, depth_ok l (lexSpace l).
Proof.
  intros l; unfold lexSpace, ignore; dep_split; dep_leaf.
Qed.

Lemma depth_lexQuote : forall l, depth_ok l (lexQuote l).
Proof.
  intros l; unfold lexQuote, errorf, emit_any, emit; dep_split; dep_leaf.
Qed.


Lemma depth_lexBlockComment : forall l, depth_ok l (lexBlockComment l).
Proof.
  intros l; unfold lexBlockComment, errorf, ignore; dep_split; dep_leaf.
Qed.

Lemma depth_lexChar : forall l, depth_ok l (lexChar l).
Proof.
  intros l; unfold lexChar, errorf, emit_any, emit; dep_split; dep_leaf.
Qed.

Lemma depth_lexNumber : forall l, depth_ok l (lexNumber uni l).
Proof.
  intros l; unfold lexNumber, acceptRun, errorf, emit_any, emit; dep_split; dep_leaf.
Qed.

Lemma depth_lexIdentifier : forall l, depth_ok l (lexIdentifier uni l).
Proof.
  intros l; unfold lexIdentifier.
  pose proof (dep_lexIdentifier_loop uni (S (String.length (input l))) l) as D1.
  destruct (lexIdentifier_loop uni _ l) as [r l1]; cbn [snd] in D1.
  pose proof (dep_atTerminator l1) as D2.
  destruct (atTerminator l1) as [term l2]; cbn [snd] in D2; cbv zeta.
  unfold errorf, emit_any, emit.
  destruct (negb term); [dep_leaf|].
  destruct (tokenType_val tokenKeyDelim <? tokenType_val (key _)) eqn:Ek.
  - destruct (key _); cbn in Ek; try discriminate Ek; dep_leaf.
  - destruct (_ || _); dep_leaf.
Qed.

Lemma depth_lexAny : forall l, depth_ok l (lexAny uni l).
Proof.
  intros l; unfold lexAny, lexAny_switch, errorf, emit_any, emit; dep_split; dep_leaf.
Qed.

End DepthFacts.

Lemma depth_step : forall uni st l, depth_ok l (step uni st l).
Proof.
  intros uni [] l; cbn [step]; auto using depth_lexAny, depth_lexComment, depth_lexBlockComment,
    depth_lexSpace, depth_lexIdentifier, depth_lexQuote, depth_lexChar, depth_lexNumber.
Qed.

Lemma final_EOF : forall t, typ t = tokenEOF -> final_tok t = true.
Proof. intros t Ht; unfold final_tok, is_typ, tokenType_eqb; rewrite Ht; reflexivity. Qed.

Lemma run_depth : forall uni n st l, 0 <= parenDepth l -> forall pre t,
  run uni n st l = pre ++ [t] -> typ t = tokenEOF ->
  parenDepth l + bal tokenLeftParen tokenRightParen pre = 0 /\
  curlyDepth l + bal tokenLeftCurly tokenRightCurly pre <= 0.
Proof.
  intros uni n; induction n as [|n IH]; intros st l Hn pre t E Ht.
  - cbn [run] in E; symmetry in E; apply app_eq_nil in E; destruct E as [_ E]; discriminate E.
  - cbn [run] in E.
    pose proof (depth_step uni st l) as Dp; pose proof (step_fin_all uni st l) as Fn.
    destruct (step uni st l) as [[ts l'] [s'|]]; cbn [depth_ok step_fin] in Dp, Fn; cbv beta iota in E.
    + destruct Dp as (P & C & Nn).
      destruct (run uni n s' l') as [|u rest] eqn:R.
      * rewrite app_nil_r in E; subst ts.
        apply Forall_app in Fn; destruct Fn as [_ Ft]; inversion Ft as [|? ? Ft1]; subst.
        rewrite final_EOF in Ft1 by exact Ht; discriminate Ft1.
      * destruct (exists_last (l := u :: rest)) as [pre2 [t2 E2]]; [discriminate|].
        rewrite E2 in E, R; rewrite app_assoc in E; apply app_inj_tail in E as [<- ->].
        destruct (IH s' l' (Nn Hn) pre2 t R Ht) as [IP IC].
        rewrite !bal_app; lia.
    + rewrite app_nil_r in E; exact (Dp Hn pre t E Ht).
Qed.

Lemma chainto_succ : forall pre ts b e a c suf,
  chainto b ts e -> ts = pre ++ a :: c :: suf -> (tpos a < tpos c)%nat.
Proof.
  induction pre as [|p pre IH]; intros ts b e a c suf Hc ->; simpl in Hc.
  - destruct Hc as (_ & Hac & _); lia.
  - exact (IH _ _ _ a c suf (proj2 Hc) eq_refl).
Qed.

Lemma lex_init_wf : forall uni input,
  lex_wf input (lex_init input) /\ entry uni LexAny (lex_init input).
Proof. intros uni input; split; [split; [reflexivity | simpl; lia] | exact I]. Qed.

(** C10: every token the scanner emits, other than an error or EOF token,
    is the slice of the input at its offset with its own length; and the
    offsets of successive tokens strictly increase.  Stated for the tokens
    of any number of state transitions from [lexAny], so for every prefix
    of the token stream and for the whole stream. *)
Theorem lexer_tokens_are_slices : forall uni n input,
  (forall t, In t (run uni n LexAny (lex_init input)) ->
     typ t <> tokenError -> typ t <> tokenEOF ->
     val t = substring (tpos t) (String.length (val t)) input) /\
  (forall pre a b suf, run uni n LexAny (lex_init input) = pre ++ a :: b :: suf ->
     (tpos a < tpos b)%nat).
Proof.
  intros uni n input.
  destruct (lex_init_wf uni input) as [Hw He].
  destruct (run_spec uni input n LexAny (lex_init input) Hw He) as (Hsl & [e Hc] & _).
  split.
  - intros t Hin He' Hf.
    rewrite Forall_forall in Hsl; destruct (Hsl t Hin) as [H|[H|H]]; [contradiction..|exact H].
  - intros pre a b suf Heq; exact (chainto_succ pre _ _ e a b suf Hc Heq).
Qed.

Lemma lexer_tokens_are_slices_witness :
  (tpos (mkToken tokenLeftParen 0 "(") < tpos (mkToken tokenNumber 1 "3"))%nat /\
  val (mkToken tokenNumber 1 "3") =
    substring (tpos (mkToken tokenNumber 1 "3")) (String.length (val (mkToken tokenNumber 1 "3"))) "(3".
Proof.
  split.
  - apply (proj2 (lexer_tokens_are_slices test_tables 6%nat "(3") []
             (mkToken tokenLeftParen 0 "(") (mkToken tokenNumber 1 "3")
             [mkToken tokenError 2 "unclosed left paren"]).
    vm_compute; reflexivity.
  - apply (proj1 (lexer_tokens_are_slices test_tables 6%nat "(3") (mkToken tokenNumber 1 "3"));
      [vm_compute; right; left; reflexivity | discriminate | discriminate].
Defined.

(** C6: an error token ends the scanner's token stream (nothing follows it,
    for any input and any number of transitions), and [parseDeclaration]
    stops on it (returns false without reading further).  But the diagnostic
    it records is appended to a copy of the parser: whenever Parse returns,
    the error list it prints is empty, and on [3k] the lexer's error is lost. *)
Theorem lex_error_ends_stream : forall uni,
  (forall n input pre t suf, run uni n LexAny (lex_init input) = pre ++ t :: suf ->
     typ t = tokenError -> suf = []) /\
  (forall fuel p st t st', lex_peekToken st = Done (t, st') -> typ t = tokenError ->
     parseDeclaration uni fuel p st = Done (false, st')) /\
  (forall n r f l, parse_run uni n r = Done (f, l) -> l = []) /\
  parse_run uni 1 "3k" = Done (new_File, []).

Proof.
  intros uni; split; [|split; [|split]].
  - intros n input.
    destruct (lex_init_wf uni input) as [Hw He].
    exact (proj2 (proj2 (run_spec uni input n LexAny (lex_init input) Hw He))).
  - exact (parseDeclaration_error uni).
  - exact (parse_run_errors uni).
  - vm_compute; reflexivity.
Qed.

Lemma lex_error_ends_stream_witness :
  run test_tables 6%nat LexAny (lex_init "3k") =
    [mkToken tokenError 0 ("bad number syntax: " +++ dquote +++ "3k" +++ dquote)] /\
  @nil token = [].
Proof.
  split; [vm_compute; reflexivity|].
  apply (proj1 (lex_error_ends_stream test_tables) 6%nat "3k"%string []
           (mkToken tokenError 0 ("bad number syntax: " +++ dquote +++ "3k" +++ dquote)));
    [vm_compute; reflexivity | reflexivity].
Defined.

(** ** Further properties of the code *)

(** keywords.HasKeyword finds exactly the members of the list. *)
Theorem HasKeyword_In : forall k w, HasKeyword k w = true <-> In w k.
Proof.
  intros k w; unfold HasKeyword; rewrite existsb_exists; split.
  - intros [x [Hin Heq]]; apply String.eqb_eq in Heq; subst; exact Hin.
  - intros H; exists w; split; [exact H | apply String.eqb_refl].
Qed.

(** keywords.CompareKeywords on two duplicate-free lists holds exactly when
    they hold the same keywords, in any order. *)
Theorem CompareKeywords_same_set : forall k l, NoDup k -> NoDup l ->
  (CompareKeywords k l = true <-> forall w, In w k <-> In w l).
Proof.
  intros k l Hk Hl; unfold CompareKeywords; rewrite Bool.andb_true_iff, Nat.eqb_eq, forallb_forall.
  split.
  - intros [Hlen Hall].
    assert (Hinc : incl k l) by (intros w Hw; apply HasKeyword_In, Hall, Hw).
    assert (Hinc' : incl l k) by (apply NoDup_length_incl; [exact Hk | lia | exact Hinc]).
    intros w; split; [apply Hinc | apply Hinc'].
  - intros Heq; split.
    + apply Nat.le_antisymm; apply NoDup_incl_length; try assumption; intros w; apply Heq.
    + intros w Hw; apply HasKeyword_In, Heq, Hw.
Qed.

Lemma CompareKeywords_same_set_witness :
  NoDup ["ram"; "db"]%string /\ NoDup ["db"; "ram"]%string /\
  CompareKeywords ["ram"; "db"]%string ["db"; "ram"]%string = true.
Proof.
  assert (H1 : NoDup ["ram"; "db"]%string)
    by (constructor; [simpl; intros [H|[]]; discriminate H | constructor; [intros [] | constructor]]).
  assert (H2 : NoDup ["db"; "ram"]%string)
    by (constructor; [simpl; intros [H|[]]; discriminate H | constructor; [intros [] | constructor]]).
  split; [exact H1|]; split; [exact H2|].
  apply (proj2 (CompareKeywords_same_set _ _ H1 H2)).
  intros w; simpl; tauto.
Defined.

(** File.AddType with a type name other than "class" and "struct" returns nil
    and leaves the File alone; with "class" or "struct" on a File whose
    ClassByName map is nil (as in [new(File)]) it panics. *)
Theorem File_AddType_nil_cases : forall f name typ,
  (typ <> "class"%string -> typ <> "struct"%string -> File_AddType f name typ = Done (None, f)) /\
  (ClassByName f = None -> typ = "class"%string \/ typ = "struct"%string ->
     File_AddType f name typ = Panic "assignment to entry in nil map").
Proof.
  intros f name typ; unfold File_AddType; split.
  - intros H1 H2; apply String.eqb_neq in H1, H2; rewrite H1, H2; reflexivity.
  - intros Hn [-> | ->]; rewrite Hn; reflexivity.
Qed.

(** File.AddType "class" or "struct" on a File with a map appends a new Type
    whose index is the former number of types, also when the name is already
    taken; the map then leads the name (and only it) to the new Type, and
    Fields and keywords are unchanged. *)
Theorem File_AddType_appends : forall f name typ m,
  ClassByName f = Some m -> typ = "class"%string \/ typ = "struct"%string ->
  exists t f', File_AddType f name typ = Done (Some t, f') /\
    tname t = name /\ tindex t = List.length (Classes f) /\
    Classes f' = Classes f ++ [t] /\ nth_error (Classes f') (tindex t) = Some t /\
    ClassByName_lookup f' name = Some (tindex t) /\
    (forall n, n <> name -> ClassByName_lookup f' n = ClassByName_lookup f n) /\
    Fields f' = Fields f /\ file_keywords f' = file_keywords f.
Proof.
  intros f name typ m Hm Ht.
  set (k := if String.eqb typ "class" then ClassKind else StructKind).
  set (t := mkTypeBase k name (List.length (Classes f))).
  exists t, (mkFile (Classes f ++ [t]) (Fields f) (Some ((name, tindex t) :: m)) (file_keywords f)).
  split.
  - unfold File_AddType; rewrite Hm.
    destruct Ht as [-> | ->]; reflexivity.
  - simpl; repeat split.
    + rewrite nth_error_app2 by lia; rewrite Nat.sub_diag; reflexivity.
    + unfold ClassByName_lookup; simpl; rewrite String.eqb_refl; reflexivity.
    + intros n Hn; unfold ClassByName_lookup; rewrite Hm; simpl.
      apply not_eq_sym, String.eqb_neq in Hn; rewrite Hn; reflexivity.
Qed.

Lemma File_AddType_appends_witness :
  exists t f', File_AddType (mkFile [] [] (Some []) []) "S" "struct" = Done (Some t, f') /\
    tname t = "S"%string /\ tindex t = 0%nat /\
    Classes f' = [t] /\ nth_error (Classes f') (tindex t) = Some t /\
    ClassByName_lookup f' "S" = Some (tindex t) /\
    (forall n, n <> "S"%string -> ClassByName_lookup f' n = None) /\
    Fields f' = [] /\ file_keywords f' = [].
Proof.
  destruct (File_AddType_appends (mkFile [] [] (Some []) []) "S" "struct" [] eq_refl
              (or_intror eq_refl)) as (t & f' & H).
  exists t, f'; exact H.
Defined.

(** File.AddType keeps the File consistent: positions are indices, and every
    name of the map leads to a Type of that name. *)
Theorem File_AddType_consistent : forall f name typ r f',
  classes_consistent f -> File_AddType f name typ = Done (r, f') -> classes_consistent f'.
Proof.
  intros f name typ r f' [Hidx Hmap]; unfold File_AddType.
  assert (Hmk : forall k, match ClassByName f with
      | None => Panic "assignment to entry in nil map"
      | Some m => Done (Some (mkTypeBase k name (List.length (Classes f))),
                        mkFile (Classes f ++ [mkTypeBase k name (List.length (Classes f))]) (Fields f)
                          (Some ((name, List.length (Classes f)) :: m)) (file_keywords f))
      end = Done (r, f') -> classes_consistent f').
  { intros k; destruct (ClassByName f) as [m|] eqn:Hm; [|discriminate].
    intros H; injection H as <- <-; split; simpl.
    - intros i t Hi.
      destruct (Nat.lt_ge_cases i (List.length (Classes f))) as [Hlt|Hge].
      + rewrite nth_error_app1 in Hi by exact Hlt; exact (Hidx i t Hi).
      + rewrite nth_error_app2 in Hi by exact Hge.
        destruct (i - List.length (Classes f))%nat as [|j] eqn:Hj.
        * injection Hi as <-; simpl; lia.
        * destruct j; discriminate Hi.
    - intros n i Hl; unfold ClassByName_lookup in Hl; simpl in Hl.
      destruct (String.eqb name n) eqn:En.
      + injection Hl as <-; apply String.eqb_eq in En; subst n.
        exists (mkTypeBase k name (List.length (Classes f))); split; [|reflexivity].
        rewrite nth_error_app2, Nat.sub_diag by lia; reflexivity.
      + assert (Hl' : ClassByName_lookup f n = Some i) by (unfold ClassByName_lookup; rewrite Hm; exact Hl).
        destruct (Hmap n i Hl') as (t & Ht & Hn).
        exists t; split; [|exact Hn].
        rewrite nth_error_app1; [exact Ht|].
        apply nth_error_Some; rewrite Ht; discriminate. }
  destruct (String.eqb typ "class"); [apply Hmk|].
  destruct (String.eqb typ "struct"); [apply Hmk|].
  intros H; injection H as <- <-; split; assumption.
Qed.

Lemma File_AddType_consistent_witness :
  classes_consistent (mkFile [] [] (Some []) []) /\
  exists r f', File_AddType (mkFile [] [] (Some []) []) "C" "class" = Done (r, f') /\
    classes_consistent f'.
Proof.
  assert (H0 : classes_consistent (mkFile [] [] (Some []) [])).
  { split; simpl; [intros [|i] t H; discriminate H | intros n i H; discriminate H]. }
  split; [exact H0|].
  exists (Some (mkTypeBase ClassKind "C" 0)),
    (mkFile [mkTypeBase ClassKind "C" 0] [] (Some [("C"%string, 0%nat)]) []).
  split; [reflexivity|].
  exact (File_AddType_consistent _ "C" "class" _ _ H0 eq_refl).
Defined.

(** lexer.peekToken and lexer.nextToken: on an empty channel both block;
    otherwise peeking returns the next token, peeking again returns it again
    without change, and the next read returns that same token and leaves the
    channel, [hasPeeked] and [lastPos] as a read without the peek would.
    A peek does not move the line that lineNumber reports; after the read,
    lineNumber reports the line of the token read. *)
Theorem peekToken_nextToken : forall s,
  (hasPeeked (plex s) = false -> ch_toks (plex s) = [] ->
     lex_peekToken s = Blocked /\ lex_nextToken s = Blocked) /\
  (forall t r, hasPeeked (plex s) = false -> ch_toks (plex s) = t :: r ->
   exists s1 s2 s2',
     lex_peekToken s = Done (t, s1) /\ lex_peekToken s1 = Done (t, s1) /\
     lex_nextToken s1 = Done (t, s2) /\ lex_nextToken s = Done (t, s2') /\
     ch_toks (plex s2) = r /\ ch_toks (plex s2') = r /\
     hasPeeked (plex s2) = false /\ hasPeeked (plex s2') = false /\
     lastPos (plex s2) = tpos t /\ lastPos (plex s2') = tpos t /\
     pdcf s2 = pdcf s /\ pdcf s2' = pdcf s /\
     (forall a, lex_lineNumber s = Done (a, s) -> lex_lineNumber s1 = Done (a, s1)) /\
     lex_lineNumber s2 =
       Done (1 + count_newlines (substring 0 (tpos t) (ch_input (plex s))), s2)%nat).
Proof.
  intros [[toks hp pk lp inp] dcf]; simpl; split.
  - intros -> ->; split; reflexivity.
  - intros t r -> ->.
    eexists; eexists; eexists.
    split; [reflexivity|]; split; [reflexivity|]; split; [reflexivity|]; split; [reflexivity|].
    simpl; repeat split.
    intros a H; unfold lex_lineNumber in H |- *; simpl in H |- *.
    injection H as <-; reflexivity.
Qed.

(** typeFromToken: identifiers, and only they, give StructType; a token
    gives InvalidType exactly when it is neither a data type keyword
    (isDataTypeToken) nor an identifier; and distinct data type keywords
    give distinct DataTypes. *)
Theorem typeFromToken_cases : forall t,
  (typeFromToken t = StructType <-> typ t = tokenIdentifier) /\
  (typeFromToken t = InvalidType <-> isDataTypeToken t = false /\ typ t <> tokenIdentifier) /\
  (forall t', isDataTypeToken t = true -> isDataTypeToken t' = true ->
     typeFromToken t = typeFromToken t' -> typ t = typ t').
Proof.
  intros [k p v]; unfold typeFromToken, isDataTypeToken; simpl.
  split; [|split].
  - destruct k; split; intros H; (reflexivity || discriminate H).
  - destruct k; split; intros H;
      first [ discriminate H
            | split; [reflexivity | discriminate]
            | reflexivity
            | destruct H as [H1 H2]; first [discriminate H1 | contradiction H2; reflexivity] ].
  - intros [k' p' v']; simpl.
    destruct k; intros H1; try discriminate H1; destruct k'; intros H2 H3;
      try discriminate H2; try discriminate H3; reflexivity.
Qed.

(** The map key and the map tokenName: every word of key is a keyword type
    (above tokenKeyDelim) whose name is the word itself, except "uint64",
    which tokenName prints as "uint65"; and looking up the name of every
    keyword type in key gives the type back, except for tokenUint64. *)
Theorem key_tokenName : forall w k,
  (key w = tokenError \/
   (tokenType_val tokenKeyDelim < tokenType_val (key w) /\
    (tokenName (key w) = w \/ (w = "uint64"%string /\ tokenName (key w) = "uint65"%string)))) /\
  (tokenType_val tokenKeyDelim < tokenType_val k -> k <> tokenTypeDelim ->
   (k <> tokenUint64 -> key (tokenName k) = k) /\
   (k = tokenUint64 -> key (tokenName k) = tokenError)).
Proof.
  intros w k; split.
  - unfold key.
    repeat match goal with
    | |- context [String.eqb w ?c] =>
        let E := fresh "E" in
        destruct (String.eqb w c) eqn:E; [apply String.eqb_eq in E; subst w; right; split; [reflexivity|]|]
    end; first [left; reflexivity | right; split; reflexivity].
  - destruct k; simpl; intros H1 H2; try discriminate H1; try (contradiction H2; reflexivity);
      split; intros H3; try reflexivity; try discriminate H3; contradiction H3; reflexivity.
Qed.

(** tokenType.String names distinct token types differently. *)
Theorem tokenType_String_injective : forall a b,
  tokenType_String a = tokenType_String b -> a = b.
Proof.
  intros a b; destruct a, b; try (intros; reflexivity); vm_compute; intros H; discriminate H.
Qed.

Lemma tokenType_String_injective_witness :
  tokenType_String tokenLeftSquare = "token12"%string /\ tokenLeftSquare = tokenLeftSquare.
Proof.
  split; [reflexivity|].
  apply tokenType_String_injective; reflexivity.
Defined.

(** The lexer goroutine always terminates: the token stream of any input ends
    in exactly one final EOF or error token, and running the state machine
    longer than [2 * len + 2] steps yields the same stream. *)
Theorem lexer_terminates : forall uni input,
  (exists pre t, lex_tokens uni input = pre ++ [t] /\
     (typ t = tokenEOF \/ typ t = tokenError)) /\
  (forall m, (2 * String.length input + 2 <= m)%nat ->
     run uni m LexAny (lex_init input) = lex_tokens uni input).
Proof.
  intros uni input; destruct (lex_init_wf uni input) as [Hw He].
  assert (Hlt : (lex_measure input LexAny (lex_init input) < 2 * String.length input + 2)%nat)
    by (unfold lex_measure; simpl; lia).
  destruct (run_terminates uni input _ LexAny (lex_init input) Hw He Hlt) as [Hm Ht].
  split; [exact Ht | exact Hm].
Qed.

(** Identifier tokens produced by the lexer never spell a reserved word (their
    [key] lookup fails) nor a boolean literal: those words are always emitted
    with their own token types. *)
Theorem lexer_identifiers_not_reserved : forall uni input t,
  In t (lex_tokens uni input) -> typ t = tokenIdentifier ->
  key (val t) = tokenError /\ val t <> "true"%string /\ val t <> "false"%string.
Proof.
  intros uni input t Hin Ht; destruct (lex_init_wf uni input) as [Hw He].
  pose proof (run_ident_ok uni input (2 * String.length input + 2) LexAny (lex_init input) Hw He)
    as Hall.
  exact (proj1 (Forall_forall _ _) Hall t Hin Ht).
Qed.

Lemma lexer_identifiers_not_reserved_witness :
  In (mkToken tokenIdentifier 0 "foo") (lex_tokens test_tables "foo") /\
  key (val (mkToken tokenIdentifier 0 "foo")) = tokenError.
Proof.
  assert (H : In (mkToken tokenIdentifier 0 "foo") (lex_tokens test_tables "foo"))
    by (vm_compute; left; reflexivity).
  split; [exact H|].
  exact (proj1 (lexer_identifiers_not_reserved test_tables "foo" _ H eq_refl)).
Defined.

(** ** The File that Parse returns *)

Create HintDb keep.

Section KeepsInv.

Variable uni : UnicodeHi.

Lemma keeps_ret : forall A (a : A), keeps (ret a).
Proof. intros A a st b st' Hi H; injection H as _ <-; exact Hi. Qed.

Lemma keeps_get : keeps get.
Proof. intros st b st' Hi H; injection H as _ <-; exact Hi. Qed.

Lemma keeps_nofuel : forall A, keeps (@nofuel A).
Proof. intros A st b st' Hi H; discriminate H. Qed.

Lemma keeps_panic : forall A e, keeps (fun _ => @Panic (A * pstate) e).
Proof. intros A e st b st' Hi H; discriminate H. Qed.

Lemma keeps_lineNumber : keeps lex_lineNumber.
Proof. intros st n st' Hi H; injection H as _ <-; exact Hi. Qed.

Lemma keeps_bind : forall A B (m : M A) (k : A -> M B),
  keeps m -> (forall a, keeps (k a)) -> keeps (bind m k).
Proof.
  intros A B m k Hm Hk st b st' Hi; unfold bind.
  destruct (m st) as [[a st1]| | |] eqn:E; try discriminate.
  exact (Hk a st1 b st' (Hm st a st1 Hi E)).
Qed.

Lemma keeps_bind_tok : forall B (m : M token) (k : token -> M B),
  keeps_tok m -> (forall t, ident_ok t -> keeps (k t)) -> keeps (bind m k).
Proof.
  intros B m k Hm Hk st b st' Hi; unfold bind.
  destruct (m st) as [[t st1]| | |] eqn:E; try discriminate.
  destruct (Hm st t st1 Hi E) as [Hi1 Ht].
  exact (Hk t Ht st1 b st' Hi1).
Qed.

Lemma keeps_tok_nextToken : keeps_tok lex_nextToken.
Proof.
  intros [[toks hp pk lp inp] d] t st' (Hd & Hall & Hpk); unfold lex_nextToken; simpl in *.
  destruct hp.
  - intros H; injection H as <- <-; split; [split; [exact Hd | split; assumption] | exact Hpk].
  - destruct toks as [|t0 r]; [discriminate|].
    intros H; injection H as <- <-; inversion Hall as [|? ? Ht0 Hr].
    split; [split; [exact Hd | split; assumption] | exact Ht0].
Qed.

Lemma keeps_tok_peekToken : keeps_tok lex_peekToken.
Proof.
  intros [[toks hp pk lp inp] d] t st' (Hd & Hall & Hpk); unfold lex_peekToken; simpl in *.
  destruct hp.
  - intros H; injection H as <- <-; split; [split; [exact Hd | split; assumption] | exact Hpk].
  - destruct toks as [|t0 r]; [discriminate|].
    intros H; injection H as <- <-; inversion Hall as [|? ? Ht0 Hr].
    split; [split; [exact Hd | split; assumption] | exact Ht0].
Qed.

Lemma keeps_tok_p_next : forall p, keeps_tok (p_next p).
Proof.
  intros p st t st' Hi; unfold p_next.
  destruct (foundEOF p); [discriminate|].
  unfold bind; destruct (lex_nextToken st) as [[t0 st1]| | |] eqn:E; try discriminate.
  intros H; injection H as <- <-; exact (keeps_tok_nextToken st t0 st1 Hi E).
Qed.

Lemma keeps_tok_p_peek : forall p, keeps_tok (p_peek p).
Proof. intros p; exact keeps_tok_peekToken. Qed.

#[local] Hint Resolve keeps_ret keeps_get keeps_nofuel keeps_panic keeps_lineNumber
  keeps_tok_p_next keeps_tok_p_peek keeps_tok_nextToken keeps_tok_peekToken : keep.

Ltac keep :=
  repeat (cbv beta zeta;
    match goal with
    | |- keeps (bind (p_next _) _) => apply keeps_bind_tok; [eauto with keep | intros ? ?]
    | |- keeps (bind (p_peek _) _) => apply keeps_bind_tok; [eauto with keep | intros ? ?]
    | |- keeps (bind lex_nextToken _) => apply keeps_bind_tok; [eauto with keep | intros ? ?]
    | |- keeps (bind _ _) => apply keeps_bind; [|intros ?]
    | |- keeps (match ?x with _ => _ end) => destruct x eqn:?
    | |- keeps (if ?b then _ else _) => destruct b eqn:?
    | |- keeps _ => solve [eauto with keep]
    end).

Lemma keeps_skip_loop : forall n stop p t first, keeps (skip_loop n stop p t first).
Proof. induction n; intros; cbn [skip_loop]; keep. Qed.
#[local] Hint Resolve keeps_skip_loop : keep.

Lemma keeps_expectRightCurly : forall n p l, keeps (expectRightCurly uni n p l).
Proof. intros; unfold expectRightCurly; keep. Qed.
#[local] Hint Resolve keeps_expectRightCurly : keep.

(** A token of [ident_ok] never spells [keyword], [struct] or [dclass], so
    parseDeclaration never reaches parseKeyword, parseStruct or parseClass. *)
Ltac no_reserved :=
  match goal with
  | Ht : ident_ok ?t, Et : typ ?t = tokenIdentifier,
    Eb : String.eqb (val ?t) _ = true |- _ =>
      exfalso; apply String.eqb_eq in Eb; destruct (Ht Et) as [Hk _];
      rewrite Eb in Hk; vm_compute in Hk; discriminate Hk
  end.

Lemma keeps_parseDeclaration : forall n p, keeps (parseDeclaration uni n p).
Proof. intros; unfold parseDeclaration; keep; no_reserved. Qed.
#[local] Hint Resolve keeps_parseDeclaration : keep.

Lemma keeps_parse_loop : forall n p, keeps (parse_loop uni n p).
Proof. induction n; intros; cbn [parse_loop]; keep. Qed.

End KeepsInv.

(** Parse never changes the File it returns: whenever parsing finishes, the
    result is [new(File)] with no class, struct, field or keyword, and the
    printed error list is empty, whatever the input. *)
Theorem parse_returns_new_File : forall uni n r f l,
  parse_run uni n r = Done (f, l) -> f = new_File /\ l = [].
Proof.
  intros uni n r f l H; split; [|exact (parse_run_errors uni n r f l H)].
  revert H; unfold parse_run, parse, bind at 1.
  destruct (parse_loop uni n parser_init (Parse_init uni r)) as [[u st]| | |] eqn:E;
    try discriminate.
  assert (Hi : parse_inv st).
  { apply (keeps_parse_loop uni n parser_init (Parse_init uni r) u st); [|exact E].
    split; [reflexivity | split; [|unfold ident_ok; cbn; discriminate]].
    destruct (lex_init_wf uni r) as [Hw He].
    exact (run_ident_ok uni r _ LexAny (lex_init r) Hw He). }
  unfold bind, get, ret; simpl; intros H; injection H as <- _.
  exact (proj1 Hi).
Qed.

Lemma parse_returns_new_File_witness :
  parse_run test_tables 5 "{ a } b" = Done (new_File, []) /\ new_File = new_File.
Proof.
  assert (H : parse_run test_tables 5 "{ a } b" = Done (new_File, [])) by (vm_compute; reflexivity).
  split; [exact H|].
  exact (proj1 (parse_returns_new_File test_tables 5 "{ a } b" new_File [] H)).
Defined.

(** ** Parse never blocks and never panics *)

Lemma ends_final_cons : forall t r, ends_final (t :: r) ->
  (final_tok t = true /\ r = []) \/ (final_tok t = false /\ ends_final r).
Proof.
  intros t r (pre & f & E & Hf & Hpre).
  destruct pre as [|u pre]; simpl in E; injection E as -> E.
  - left; split; [exact Hf | exact E].
  - inversion Hpre as [|? ? Hu Hpre']; subst.
    right; split; [exact Hu | exists pre, f; split; [reflexivity | split; assumption]].
Qed.

Lemma stream_ok_tail : forall t r, stream_ok (t :: r) -> final_tok t = false -> stream_ok r.
Proof.
  intros t r [He Hi] Ht.
  destruct (ends_final_cons t r He) as [[Hf _] | [_ Hr]]; [rewrite Hf in Ht; discriminate Ht|].
  inversion Hi; split; assumption.
Qed.

Lemma stream_ok_nil : ~ stream_ok [].
Proof. intros [(pre & t & E & _) _]; destruct pre; discriminate E. Qed.

Section NoStuck.

Variable uni : UnicodeHi.

Lemma ns_bind : forall A B P Q R (m : M A) (k : A -> M B),
  no_stuck P Q m -> (forall a, no_stuck (Q a) R (k a)) -> no_stuck P R (bind m k).
Proof.
  intros A B P Q R m k Hm Hk st Hp; unfold bind.
  destruct (Hm st Hp) as [E | (a & st1 & E & Hq)]; rewrite E; [left; reflexivity|].
  exact (Hk a st1 Hq).
Qed.

Lemma ns_ret : forall A P (Q : A -> pstate -> Prop) a,
  (forall st, P st -> Q a st) -> no_stuck P Q (ret a).
Proof. intros A P Q a H st Hp; right; exists a, st; split; [reflexivity | exact (H st Hp)]. Qed.

Lemma ns_lineNumber : forall P, no_stuck P (fun _ => P) lex_lineNumber.
Proof. intros P st Hp; right; eexists; exists st; split; [reflexivity | exact Hp]. Qed.

Lemma ns_get : forall P, no_stuck P (fun _ => P) get.
Proof. intros P st Hp; right; exists st, st; split; [reflexivity | exact Hp]. Qed.

Lemma ns_nofuel : forall A P (Q : A -> pstate -> Prop), no_stuck P Q nofuel.
Proof. intros A P Q st _; left; reflexivity. Qed.

Lemma ns_pre : forall A (P P' : pstate -> Prop) (Q : A -> pstate -> Prop) m,
  (forall st, P st -> P' st) -> no_stuck P' Q m -> no_stuck P Q m.
Proof. intros A P P' Q m H Hm st Hp; exact (Hm st (H st Hp)). Qed.

Lemma ns_p_next : forall p t0, foundEOF p = false ->
  no_stuck (fun st => S_ok st /\ hd_error (pending (plex st)) = Some t0)
           (fun t st => t = t0 /\ stream_ok (t :: pending (plex st))) (p_next p).
Proof.
  intros p t0 Hp [[toks hp pk lp inp] d] [Hs Hh]; unfold p_next; rewrite Hp; right.
  unfold S_ok, pending in *; cbn in *.
  destruct hp.
  - injection Hh as ->; eexists; eexists; split; [reflexivity|]; cbn; split; [reflexivity | exact Hs].
  - destruct toks as [|t r]; [discriminate Hh|]; injection Hh as ->.
    eexists; eexists; split; [reflexivity|]; cbn; split; [reflexivity | exact Hs].
Qed.

Lemma ns_p_next_any : forall p, foundEOF p = false ->
  no_stuck S_ok (fun t st => stream_ok (t :: pending (plex st))) (p_next p).
Proof.
  intros p Hp st Hs.
  destruct (pending (plex st)) as [|t0 r] eqn:E; [contradiction (stream_ok_nil); unfold S_ok in Hs; rewrite E in Hs; exact Hs|].
  destruct (ns_p_next p t0 Hp st (conj Hs (f_equal (@hd_error token) E)))
    as [H | (t & st' & H & _ & Hq)]; [left; exact H | right; exists t, st'; split; assumption].
Qed.

Lemma ns_p_peek : forall p,
  no_stuck S_ok (fun t st => S_ok st /\ hd_error (pending (plex st)) = Some t) (p_peek p).
Proof.
  intros p [[toks hp pk lp inp] d] Hs; unfold p_peek, lex_peekToken, S_ok, pending in *; cbn in *.
  right; destruct hp.
  - eexists; eexists; split; [reflexivity|]; cbn; split; [exact Hs | reflexivity].
  - destruct toks as [|t r]; [contradiction stream_ok_nil|].
    eexists; eexists; split; [reflexivity|]; cbn; split; [exact Hs | reflexivity].
Qed.

Lemma ns_skip_loop : forall n stop p t first, foundEOF p = false ->
  no_stuck (fun st => stream_ok (t :: pending (plex st)))
    (fun r st => (is_typ stop (fst r) || final_tok (fst r)) = true /\
                 stream_ok (fst r :: pending (plex st)))
    (skip_loop n stop p t first).
Proof.
  induction n as [|n IH]; intros stop p t first Hp; cbn [skip_loop]; [apply ns_nofuel|].
  unfold final_tok.
  destruct (is_typ stop t || is_typ tokenEOF t || is_typ tokenError t) eqn:E.
  - apply ns_ret; intros st Hs; cbn [fst]; split; [|exact Hs].
    rewrite <- Bool.orb_assoc in E; exact E.
  - apply Bool.orb_false_iff in E; destruct E as [E Herr].
    apply Bool.orb_false_iff in E; destruct E as [_ Heof].
    apply (ns_bind _ _ _ (fun t' st => stream_ok (t' :: pending (plex st)))).
    + apply (ns_pre _ _ (S_ok)); [|exact (ns_p_next_any p Hp)].
      intros st Hs; apply (stream_ok_tail t); [exact Hs | unfold final_tok; rewrite Heof, Herr; reflexivity].
    + intros t'; exact (IH stop p t' false Hp).
Qed.

Lemma ns_expectRightCurly : forall n p ln, foundEOF p = false ->
  no_stuck S_ok (fun b st => b = true -> S_ok st) (expectRightCurly uni n p ln).
Proof.
  intros n p ln Hp; unfold expectRightCurly.
  apply (ns_bind _ _ _ _ _ _ _ (ns_p_next_any p Hp)); intros t.
  apply (ns_bind _ _ _ _ _ _ _ (ns_skip_loop n tokenRightCurly p t true Hp)); intros [t' nxt].
  cbn [fst]; destruct (typ t') eqn:Et; cbv beta iota zeta;
    try (apply (ns_bind _ _ _ _ _ _ _ (ns_lineNumber _)); intros ?);
    try (apply (ns_bind _ _ _ _ _ _ _ (ns_lineNumber _)); intros ?);
    apply ns_ret; intros st [Hst Hs] H; try discriminate H;
    apply (stream_ok_tail t' _ Hs); unfold final_tok, is_typ; rewrite Et; reflexivity.
Qed.

(** A token of [ident_ok] never spells [keyword], [struct] or [dclass]. *)
Lemma ident_ok_not_reserved : forall t c, ident_ok t -> typ t = tokenIdentifier ->
  key c <> tokenError -> String.eqb (val t) c = false.
Proof.
  intros t c Ht Et Hc; destruct (String.eqb (val t) c) eqn:E; [|reflexivity].
  apply String.eqb_eq in E; destruct (Ht Et) as [Hk _]; rewrite E in Hk; contradiction (Hc Hk).
Qed.

Lemma ns_pure : forall A P (Q : A -> pstate -> Prop) m (R : Prop),
  (forall st, P st -> R) -> (R -> no_stuck P Q m) -> no_stuck P Q m.
Proof. intros A P Q m R HR Hm st Hp; exact (Hm (HR st Hp) st Hp). Qed.

(** The [curly] branch of parseDeclaration, on a peeked token that is not
    final. *)
Ltac curly Hp Hf :=
  apply (ns_bind _ _ _ _ _ _ _ (ns_p_next _ _ Hp)); intros ?t1;
  apply (ns_pre _ _ S_ok); [intros ?st [-> ?Hs]; exact (stream_ok_tail _ _ Hs Hf)|];
  apply (ns_bind _ _ _ _ _ _ _ (ns_lineNumber _)); intros ?ln; cbv zeta;
  apply (ns_bind _ _ _ _ _ _ _ (ns_lineNumber _)); intros ?ln2;
  apply ns_expectRightCurly; exact Hp.

Lemma ns_parseDeclaration : forall n p, foundEOF p = false ->
  no_stuck S_ok (fun b st => b = true -> S_ok st) (parseDeclaration uni n p).
Proof.
  intros n p Hp; unfold parseDeclaration.
  apply (ns_bind _ _ _ _ _ _ _ (ns_p_peek p)); intros t; cbv zeta.
  destruct (typ t) eqn:Et.
  all: try (apply ns_ret; intros st _ H; discriminate H).
  all: try (apply (ns_bind _ _ _ _ _ _ _ (ns_lineNumber _)); intros ?; cbv zeta;
            apply ns_ret; intros st [Hs _] _; exact Hs).
  - apply (ns_pure _ _ _ _ (ident_ok t)).
    { intros st [[_ Hall] Hh]; destruct (pending (plex st)) as [|u r]; [discriminate Hh|].
      injection Hh as ->; inversion Hall; assumption. }
    intros Hi; rewrite !(ident_ok_not_reserved t _ Hi Et) by (vm_compute; discriminate).
    assert (Hf : final_tok t = false) by (unfold final_tok, is_typ; rewrite Et; reflexivity).
    curly Hp Hf.
  - assert (Hf : final_tok t = false) by (unfold final_tok, is_typ; rewrite Et; reflexivity).
    curly Hp Hf.
Qed.

Lemma ns_parse_loop : forall n p, foundEOF p = false ->
  no_stuck S_ok (fun _ _ => True) (parse_loop uni n p).
Proof.
  induction n as [|n IH]; intros p Hp; cbn [parse_loop]; [apply ns_nofuel|].
  apply (ns_bind _ _ _ _ _ _ _ (ns_parseDeclaration n p Hp)); intros [|].
  - apply (ns_pre _ _ S_ok); [intros st H; exact (H eq_refl) | exact (IH p Hp)].
  - apply ns_ret; intros; exact I.
Qed.

End NoStuck.

(** Parse never blocks on the lexer's channel and never panics, whatever the
    input: it either returns a File with a nil error or never returns. *)
Theorem Parse_never_blocks_or_panics : forall uni n r,
  Parse uni n r = NoFuel \/ exists f, Parse uni n r = Done (f, None).
Proof.
  intros uni n r.
  assert (Hs : S_ok (Parse_init uni r)).
  { unfold S_ok, pending, Parse_init; cbn [plex hasPeeked ch_toks].
    destruct (lex_init_wf uni r) as [Hw He]; split.
    - apply (run_ends_final uni r _ LexAny (lex_init r) Hw He).
      unfold lex_measure; simpl; lia.
    - exact (run_ident_ok uni r _ LexAny (lex_init r) Hw He). }
  destruct (ns_parse_loop uni n parser_init eq_refl _ Hs) as [E | (u & st & E & _)];
    unfold Parse, parse_run, parse, bind; cbv beta; rewrite E; [left; reflexivity|].
  right; eexists; reflexivity.
Qed.

(** ** What expectEndline and expectRightCurly consume *)

Section Expect.

Variable uni : UnicodeHi.

Lemma next_pending : forall c d h tl, pending c = h :: tl ->
  exists c1, lex_nextToken (mkP c d) = Done (h, mkP c1 d) /\ pending c1 = tl.
Proof.
  intros [toks hp pk lp inp] d h tl; unfold pending, lex_nextToken; cbn.
  destruct hp.
  - intros H; injection H as -> ->; eexists; split; [reflexivity | reflexivity].
  - destruct toks as [|u r]; [discriminate|]; intros H; injection H as -> ->.
    eexists; split; [reflexivity | reflexivity].
Qed.

Lemma p_next_pending : forall p c d h tl, foundEOF p = false -> pending c = h :: tl ->
  exists c1, p_next p (mkP c d) = Done (h, mkP c1 d) /\ pending c1 = tl.
Proof.
  intros p c d h tl Hp Hc; unfold p_next; rewrite Hp.
  destruct (next_pending c d h tl Hc) as (c1 & E & Hc1).
  exists c1; unfold bind; rewrite E; split; [reflexivity | exact Hc1].
Qed.

Lemma skip_loop_spec : forall pre n stop p t0 t rest c d first,
  foundEOF p = false -> t0 :: pending c = pre ++ t :: rest ->
  Forall (fun u => (is_typ stop u || final_tok u) = false) pre ->
  (is_typ stop t || final_tok t) = true -> (List.length pre < n)%nat ->
  exists c', skip_loop n stop p t0 first (mkP c d) = Done ((t, first && Nat.eqb (List.length pre) 0), mkP c' d) /\
             pending c' = rest.
Proof.
  induction pre as [|u pre IH]; intros n stop p t0 t rest c d first Hp Hall Hpre Ht Hn;
    (destruct n as [|n]; [cbn in Hn; lia|]); cbn [skip_loop].
  - injection Hall as -> Hc.
    unfold final_tok in Ht; rewrite Bool.orb_assoc in Ht; rewrite Ht.
    exists c; split; [destruct first; reflexivity | exact Hc].
  - injection Hall as -> Hc.
    inversion Hpre as [|? ? Hu Hpre']; subst.
    unfold final_tok in Hu; rewrite Bool.orb_assoc in Hu; rewrite Hu.
    destruct (pre ++ t :: rest) as [|h tl] eqn:E; [destruct pre; discriminate E|].
    destruct (p_next_pending p c d h tl Hp Hc) as (c1 & E1 & Hc1).
    unfold bind; rewrite E1; cbv beta iota.
    destruct (IH n stop p h t rest c1 d false Hp ltac:(rewrite Hc1; exact (eq_sym E)) Hpre' Ht
                ltac:(cbn in Hn; lia)) as (c' & E2 & Hc').
    exists c'; split; [rewrite E2; destruct first; reflexivity | exact Hc'].
Qed.

End Expect.

(** expectRightCurly reads the tokens up to and including the first [}],
    EOF or error token (at least one token), leaves the File alone, and
    returns false exactly when it stopped at EOF or an error. *)
Theorem expectRightCurly_consumes : forall uni n p ln c d pre t rest,
  foundEOF p = false -> pending c = pre ++ t :: rest ->
  Forall (fun u => (is_typ tokenRightCurly u || final_tok u) = false) pre ->
  (is_typ tokenRightCurly t || final_tok t) = true -> (List.length pre < n)%nat ->
  exists c', expectRightCurly uni n p ln (mkP c d) = Done (negb (final_tok t), mkP c' d) /\
             pending c' = rest.
Proof.
  intros uni n p ln c d pre t rest Hp Hc Hpre Ht Hn.
  destruct (pre ++ t :: rest) as [|h tl] eqn:E; [destruct pre; discriminate E|].
  destruct (p_next_pending p c d h tl Hp Hc) as (c1 & E1 & Hc1).
  destruct (skip_loop_spec pre n tokenRightCurly p h t rest c1 d true Hp
              ltac:(rewrite Hc1; exact (eq_sym E)) Hpre Ht Hn) as (c' & E2 & Hc').
  exists c'; split; [|exact Hc'].
  unfold expectRightCurly, bind; rewrite E1; cbv beta iota; rewrite E2; cbv beta iota.
  unfold final_tok, is_typ; destruct (typ t); reflexivity.
Qed.

Lemma expectRightCurly_consumes_witness :
  exists c', expectRightCurly test_tables 2 parser_init 1
    (mkP (mkChan [mkToken tokenIdentifier 2 "a"; mkToken tokenRightCurly 4 "}";
                  mkToken tokenEOF 5 ""] false zero_token 0 "{ a }") new_File)
    = Done (true, mkP c' new_File) /\ pending c' = [mkToken tokenEOF 5 ""].
Proof.
  apply (expectRightCurly_consumes test_tables 2 parser_init 1
           (mkChan [mkToken tokenIdentifier 2 "a"; mkToken tokenRightCurly 4 "}";
                    mkToken tokenEOF 5 ""] false zero_token 0 "{ a }") new_File
           [mkToken tokenIdentifier 2 "a"] (mkToken tokenRightCurly 4 "}")
           [mkToken tokenEOF 5 ""]);
    [reflexivity | reflexivity | repeat constructor | reflexivity | simpl; lia].
Defined.

(** expectEndline reads the tokens up to and including the first [;], EOF
    or error token (at least one token), leaves the File alone, and returns
    false exactly when it stopped at EOF or an error. *)
Theorem expectEndline_consumes : forall uni n p ln c d pre t rest,
  foundEOF p = false -> pending c = pre ++ t :: rest ->
  Forall (fun u => (is_typ tokenEndline u || final_tok u) = false) pre ->
  (is_typ tokenEndline t || final_tok t) = true -> (List.length pre < n)%nat ->
  exists c', expectEndline uni n p ln (mkP c d) = Done (negb (final_tok t), mkP c' d) /\
             pending c' = rest.
Proof.
  intros uni n p ln c d pre t rest Hp Hc Hpre Ht Hn.
  destruct (pre ++ t :: rest) as [|h tl] eqn:E; [destruct pre; discriminate E|].
  destruct (p_next_pending p c d h tl Hp Hc) as (c1 & E1 & Hc1).
  destruct (skip_loop_spec pre n tokenEndline p h t rest c1 d true Hp
              ltac:(rewrite Hc1; exact (eq_sym E)) Hpre Ht Hn) as (c' & E2 & Hc').
  exists c'; split; [|exact Hc'].
  unfold expectEndline, bind; rewrite E1; cbv beta iota; rewrite E2; cbv beta iota.
  unfold final_tok, is_typ; destruct (typ t); reflexivity.
Qed.

Lemma expectEndline_consumes_witness :
  exists c', expectEndline test_tables 1 parser_init 1
    (mkP (mkChan [mkToken tokenEOF 3 ""] false zero_token 0 "a b") new_File)
    = Done (false, mkP c' new_File) /\ pending c' = [].
Proof.
  apply (expectEndline_consumes test_tables 1 parser_init 1
           (mkChan [mkToken tokenEOF 3 ""] false zero_token 0 "a b") new_File
           [] (mkToken tokenEOF 3 "") []);
    [reflexivity | reflexivity | constructor | reflexivity | simpl; lia].
Defined.

(** The lexer ends a token stream with EOF only when, among the tokens
    before it, left and right parentheses are equally many and right curly
    braces are at least as many as left ones: a ')' that would make the paren
    depth negative ends the stream with an error, and at end of input a
    positive paren or curly depth gives an error instead of EOF.  An extra
    '}' is not refused, since that branch of lexAny tests parenDepth. *)
Theorem lexer_EOF_balanced : forall uni input pre t,
  lex_tokens uni input = pre ++ [t] -> typ t = tokenEOF ->
  count_typ tokenLeftParen pre = count_typ tokenRightParen pre /\
  (count_typ tokenLeftCurly pre <= count_typ tokenRightCurly pre)%nat.
Proof.
  intros uni input pre t E Ht.
  destruct (run_depth uni _ LexAny (lex_init input) ltac:(cbn; lia) pre t E Ht) as [P C].
  unfold bal in P, C; cbn [lex_init parenDepth curlyDepth] in P, C; lia.
Qed.

Lemma lexer_EOF_balanced_witness :
  lex_tokens test_tables "(})" =
    [mkToken tokenLeftParen 0 "("; mkToken tokenRightCurly 1 "}";
     mkToken tokenRightParen 2 ")"] ++ [mkToken tokenEOF 3 ""] /\
  typ (mkToken tokenEOF 3 "") = tokenEOF /\
  count_typ tokenLeftCurly [mkToken tokenLeftParen 0 "("; mkToken tokenRightCurly 1 "}";
     mkToken tokenRightParen 2 ")"] = 0%nat /\
  (count_typ tokenLeftParen [mkToken tokenLeftParen 0 "("; mkToken tokenRightCurly 1 "}";
     mkToken tokenRightParen 2 ")"] =
   count_typ tokenRightParen [mkToken tokenLeftParen 0 "("; mkToken tokenRightCurly 1 "}";
     mkToken tokenRightParen 2 ")"] /\
   (count_typ tokenLeftCurly [mkToken tokenLeftParen 0 "("; mkToken tokenRightCurly 1 "}";
     mkToken tokenRightParen 2 ")"] <=
    count_typ tokenRightCurly [mkToken tokenLeftParen 0 "("; mkToken tokenRightCurly 1 "}";
     mkToken tokenRightParen 2 ")"])%nat).
Proof.
  assert (E : lex_tokens test_tables "(})" =
    [mkToken tokenLeftParen 0 "("; mkToken tokenRightCurly 1 "}";
     mkToken tokenRightParen 2 ")"] ++ [mkToken tokenEOF 3 ""]) by (vm_compute; reflexivity).
  split; [exact E|]; split; [reflexivity|]; split; [reflexivity|].
  exact (lexer_EOF_balanced test_tables "(})" _ _ E eq_refl).
Defined.

(** ** Declarations the parser never reaches *)

(** The lexer never emits an identifier token spelling [keyword], [struct]
    or [dclass]: those words get their own token types. *)
Lemma lex_no_declaration_ident : forall uni r t,
  In t (lex_tokens uni r) -> typ t = tokenIdentifier ->
  val t <> tokenName tokenKeyword /\ val t <> tokenName tokenStruct /\
  val t <> tokenName tokenDClass.
Proof.
  intros uni r t Hin Ht; destruct (lex_init_wf uni r) as [Hw He].
  pose proof (run_ident_ok uni r (2 * String.length r + 2) LexAny (lex_init r) Hw He) as Hall.
  destruct (proj1 (Forall_forall _ _) Hall t Hin Ht) as [Hk _].
  split; [|split]; intros E; rewrite E in Hk; vm_compute in Hk; discriminate Hk.
Qed.

Lemma Parse_first_token : forall uni n r t,
  hd_error (lex_tokens uni r) = Some t -> default_decl (typ t) = true ->
  Parse uni n r = NoFuel.
Proof.
  intros uni n r t Hh Hd; unfold Parse.
  rewrite (parse_run_first_token uni n r t Hh Hd); reflexivity.
Qed.

(** C2: [dclass A { B x; }] starts with a [tokenDClass] token, but
    parseDeclaration dispatches to parseClass only on a [tokenIdentifier]
    spelling "dclass", which the lexer never emits; the token goes to the
    default case without being consumed and Parse never returns, so no
    definition error citing B is produced.  Nothing writes the
    expected-identifier maps either: whenever parsing finishes, its error
    list holds no definition error. *)
Theorem dclass_declaration_never_parsed : forall uni n,
  hd_error (lex_tokens uni "dclass A { B x; }") = Some (mkToken tokenDClass 0 "dclass") /\
  Parse uni n "dclass A { B x; }" = NoFuel /\
  (forall r t, In t (lex_tokens uni r) -> typ t = tokenIdentifier -> val t <> tokenName tokenDClass) /\
  (forall m r f l, parse_run uni m r = Done (f, l) -> forall x k line, ~ In (definitionError x k line) l).
Proof.
  intros uni n; split; [vm_compute; reflexivity|]; split.
  - apply (Parse_first_token uni n _ (mkToken tokenDClass 0 "dclass")); vm_compute; reflexivity.
  - split.
    + intros r t Hin Ht; exact (proj2 (proj2 (lex_no_declaration_ident uni r t Hin Ht))).
    + intros m r f l H x k line; rewrite (parse_run_errors uni m r f l H); simpl; tauto.
Qed.

(** C3: [struct S { int8 ; int8 y; }] starts with a [tokenStruct] token,
    which parseDeclaration (testing for a [tokenIdentifier] spelling
    "struct", never emitted by the lexer) leaves unconsumed in its default
    case: Parse never returns.  Were parseStructInner reached on the rest of
    that input, it would return false (its loop tests a token read once
    before the loop, so it keeps calling parseField up to EOF), and the File
    would be left as it was: no field y. *)
Theorem struct_declaration_never_parsed : forall uni n,
  hd_error (lex_tokens uni "struct S { int8 ; int8 y; }") = Some (mkToken tokenStruct 0 "struct") /\
  Parse uni n "struct S { int8 ; int8 y; }" = NoFuel /\
  (forall r t, In t (lex_tokens uni r) -> typ t = tokenIdentifier -> val t <> tokenName tokenStruct) /\
  (forall d s, exists c',
     parseStructInner uni 8 parser_init s
       (mkP (mkChan (skipn 2 (lex_tokens uni "struct S { int8 ; int8 y; }")) false zero_token 0
               "struct S { int8 ; int8 y; }") d)
     = Done (false, mkP c' d)).
Proof.
  intros uni n; split; [vm_compute; reflexivity|]; split.
  - apply (Parse_first_token uni n _ (mkToken tokenStruct 0 "struct")); vm_compute; reflexivity.
  - split.
    + intros r t Hin Ht; exact (proj1 (proj2 (lex_no_declaration_ident uni r t Hin Ht))).
    + intros d s; vm_compute; eexists; reflexivity.
Qed.

(** C4: [keyword foo;] starts with a [tokenKeyword] token, which
    parseDeclaration (testing for a [tokenIdentifier] spelling "keyword",
    never emitted by the lexer) leaves unconsumed in its default case: Parse
    never returns.  Were parseKeyword reached on that input, it would return
    true and leave the File as it was, whatever its keywords: the append of
    AddKeyword is made to the value receiver's copy of the slice. *)
Theorem keyword_declaration_never_parsed : forall uni n,
  hd_error (lex_tokens uni "keyword foo;") = Some (mkToken tokenKeyword 0 "keyword") /\
  Parse uni n "keyword foo;" = NoFuel /\
  (forall r t, In t (lex_tokens uni r) -> typ t = tokenIdentifier -> val t <> tokenName tokenKeyword) /\
  (forall d, exists c',
     parseKeyword uni 4 parser_init
       (mkP (mkChan (lex_tokens uni "keyword foo;") false zero_token 0 "keyword foo;") d)
     = Done (true, mkP c' d)).
Proof.
  intros uni n; split; [vm_compute; reflexivity|]; split.
  - apply (Parse_first_token uni n _ (mkToken tokenKeyword 0 "keyword")); vm_compute; reflexivity.
  - split.
    + intros r t Hin Ht; exact (proj1 (lex_no_declaration_ident uni r t Hin Ht)).
    + intros d; vm_compute; eexists; reflexivity.
Qed.
